(** * Path queries over JSON documents

    A verification of [getValuesFromObjectByPath] and [traverseBasedOnPath]
    of [package/js/utensils.js]: the two functions that pull values out of a
    nested document by slash-delimited paths, distributing over arrays and
    flattening on the [[n]] marker.

    The functions are embedded twice.  [Tree] reads the document as a tree
    of values and threads the two local arrays ([pathKeys], [results])
    through the loops; it carries the functional properties.  [Store] keeps
    every array and object in a heap of cells, so that [pop], [push] and the
    arrays built by [split], [map], [filter] and [flat] are updates and
    allocations; it carries the property that the caller's objects are left
    alone.  In [Store] a read on the prototype chain may throw, as the
    accessors [caller] and [arguments] of functions do; it carries what the
    functions can throw.  The last part relates the two: on a document that
    stands for a tree, in a host whose reads do not throw, what [Store]
    returns stands for what [Tree] returns.

    Three smaller parts follow the functions around the query: the colour
    arithmetic of [package/js/toast.js] ([mixColors], [updateToastColors]),
    the request helpers that feed the query or sit beside it ([getRequest],
    [doesHTMLIncludeText], [getDataFromDataStore]), and the debounce of
    [handleChange]. *)

From Stdlib Require Import ZArith NArith Ascii Floats.SpecFloat.
From stdpp Require Import base option list list_monad strings gmap.

Set Warnings "-register-all".

(** ** The host language *)

(** *** Completions

    A JavaScript operation either completes normally with a value or throws.
    The only exception the modelled operations can throw is a [TypeError]
    (a property read on [null] or [undefined], a method missing on the
    receiver). *)

Inductive exn : Type := TypeError.

Inductive completion (A : Type) : Type :=
  | Normal (a : A)
  | Throw (e : exn).
Arguments Normal {A} a.
Arguments Throw {A} e.

#[global] Instance completion_ret : MRet completion := λ A a, Normal a.
#[global] Instance completion_bind : MBind completion := λ A B f m,
  match m with
  | Normal a => f a
  | Throw e => Throw e
  end.
#[global] Instance completion_fmap : FMap completion := λ A B f m,
  match m with
  | Normal a => Normal (f a)
  | Throw e => Throw e
  end.

(** *** Strings

    A string is the sequence of its code units.  [String_split sep s] is
    [s.split(sep)] for a one-character separator: the pieces between the
    occurrences of [sep], in order; it never returns the empty list. *)

Fixpoint String_split (sep : ascii) (s : string) : list string :=
  match s with
  | EmptyString => [EmptyString]
  | String c rest =>
      if decide (c = sep) then EmptyString :: String_split sep rest
      else match String_split sep rest with
           | w :: ws => String c w :: ws
           | [] => [String c EmptyString]
           end
  end.

Definition slash : ascii := "/"%char.

(** The marker segment. *)
Definition wildcard : string := "[n]".

(** [index_of_key k] is the array index a property key denotes: the key is
    the canonical decimal numeral of the index (["0"], ["7"], ["12"]; not
    ["07"], not [""]). *)

Definition digit_of (c : ascii) : option N :=
  let n := N_of_ascii c in
  if ((48 <=? n) && (n <=? 57))%N then Some (n - 48)%N else None.

Fixpoint digits_value (acc : N) (s : string) : option N :=
  match s with
  | EmptyString => Some acc
  | String c rest => d ← digit_of c; digits_value (10 * acc + d)%N rest
  end.

Definition index_of_key (k : string) : option N :=
  match k with
  | EmptyString => None
  | String "0"%char EmptyString => Some 0%N
  | String "0"%char _ => None
  | _ => digits_value 0%N k
  end.

(** [nth_index xs i] is the element at index [i], when there is one. *)
Definition nth_index {A} (xs : list A) (i : N) : option A :=
  if (i <? N.of_nat (length xs))%N then xs !! N.to_nat i else None.

Definition chars (s : string) : list ascii := String.list_ascii_of_string s.

(** *** Numbers

    A number is an IEEE 754 double: a signed zero, an infinity, NaN, or a
    finite value [m * 2^e]. *)

Definition number : Type := spec_float.

Definition number_of_Z (z : Z) : number := binary_normalize 53 1024 z 0 false.
Definition number_of_nat (n : nat) : number := number_of_Z (Z.of_nat n).

(** [Boolean(x)] on a number: zero (of either sign) and NaN are falsy. *)
Definition number_truthy (x : number) : bool :=
  match x with
  | S754_zero _ | S754_nan => false
  | S754_infinity _ | S754_finite _ _ _ => true
  end.

(** [pathKeys.pop()] on an array of strings: the last element, [None] for
    [undefined] when the array is empty, and the array that is left. *)
Definition Array_pop (xs : list string) : option string * list string :=
  (last xs, removelast xs).

(** A property key made from the result of [pop]: [undefined] reads as the
    key ["undefined"]. *)
Definition property_key (k : option string) : string := default "undefined" k.

(** The argument [paths]: one path string or an array of path strings. *)
Inductive paths_arg : Type :=
  | PathString (p : string)
  | PathArray (ps : list string).

(** ** Documents as trees *)

Module Tree.

(** A value is [undefined], [null], a boolean, a number, a string, an array,
    an object with string keys, or an object of the host environment (a
    built-in function such as [Object.prototype.toString]) named by [name]. *)
Inductive value : Type :=
  | VUndefined
  | VNull
  | VBool (b : bool)
  | VNumber (x : number)
  | VString (s : string)
  | VArray (xs : list value)
  | VObject (fields : gmap string value)
  | VHost (name : string).

Definition is_undefined (v : value) : bool :=
  match v with VUndefined => true | _ => false end.

(** [v === undefined || v === null] *)
Definition is_nullish (v : value) : bool :=
  match v with VUndefined | VNull => true | _ => false end.

Definition Array_isArray (v : value) : bool :=
  match v with VArray _ => true | _ => false end.

(** [Boolean(v)]: [undefined], [null], [false], zero, NaN and the empty
    string are falsy, everything else is truthy. *)
Definition Boolean (v : value) : bool :=
  match v with
  | VUndefined | VNull => false
  | VBool b => b
  | VNumber x => number_truthy x
  | VString s => negb (bool_decide (s = EmptyString))
  | VArray _ | VObject _ | VHost _ => true
  end.

(** The property a value holds itself under key [k]: a field of an object,
    an element or the length of an array, a character or the length of a
    string. *)
Definition own_property (v : value) (k : string) : option value :=
  match v with
  | VString s =>
      if decide (k = "length") then Some (VNumber (number_of_nat (String.length s)))
      else i ← index_of_key k; c ← nth_index (chars s) i;
           Some (VString (String c EmptyString))
  | VArray xs =>
      if decide (k = "length") then Some (VNumber (number_of_nat (length xs)))
      else i ← index_of_key k; nth_index xs i
  | VObject fields => fields !! k
  | _ => None
  end.

(** What a property read finds on the prototype chain of a value when the
    value has no such property itself ([toString], [constructor], ... on
    the built-in prototypes).  The prototypes belong to the host and not to
    this repository; they are a parameter.  In this embedding reading them
    does not throw; the hosts in which an inherited accessor throws are
    those of [Store]. *)
Definition host : Type := value → string → value.

Section Host.

Variable inherited : host.

(** [v[k]] for a [v] that is neither [null] nor [undefined]. *)
Definition get (v : value) (k : string) : value :=
  default (inherited v k) (own_property v k).

(** [v[k]]: throws on [null] and [undefined]. *)
Definition member (v : value) (k : string) : completion value :=
  if is_nullish v then Throw TypeError else Normal (get v k).

(** [v?.[k]] *)
Definition opt_member (v : value) (k : string) : completion value :=
  if is_nullish v then Normal VUndefined else member v k.

(** [arr.map(f)], [arr.filter(p)] and [arr.flat()]: each builds a new
    array; on a receiver that is not an array the method is missing and the
    call throws. *)
Definition Array_map (f : value → completion value) (arr : value) : completion value :=
  match arr with
  | VArray xs => VArray <$> mapM f xs
  | _ => Throw TypeError
  end.

Definition Array_filter (p : value → bool) (arr : value) : completion value :=
  match arr with
  | VArray xs => Normal (VArray (filter (λ x, p x = true) xs))
  | _ => Throw TypeError
  end.

(** One level of flattening: an element that is an array is replaced by its
    elements. *)
Definition flat_item (x : value) : list value :=
  match x with VArray ys => ys | _ => [x] end.

Definition Array_flat (arr : value) : completion value :=
  match arr with
  | VArray xs => Normal (VArray (concat (map flat_item xs)))
  | _ => Throw TypeError
  end.

(** [traverseBasedOnPath(obj, pathKeys)].  The loop variable [current] is
    the first argument; [break] and [return] end the recursion. *)
Fixpoint traverseBasedOnPath (current : value) (pathKeys : list string) : completion value :=
  match pathKeys with
  | [] => Normal current
  | key :: rest =>
      if is_nullish current then Normal current
      else if decide (key = wildcard) then
        if negb (Array_isArray current) then Normal VUndefined
        else
          mapped ← Array_map (λ item, Normal item) current;
          kept ← Array_filter Boolean mapped;
          current ← Array_flat kept;
          traverseBasedOnPath current rest
      else if Array_isArray current then
        mapped ← Array_map (λ item, opt_member item key) current;
        kept ← Array_filter Boolean mapped;
        current ← Array_flat kept;
        traverseBasedOnPath current rest
      else
        current ← opt_member current key;
        traverseBasedOnPath current rest
  end.

(** The body of the loop of [getValuesFromObjectByPath] for one element of
    [allPaths]: the array [results] after the iteration. *)
Definition path_iteration (obj : value) (results : list value) (pathKeys : list string)
    : completion (list value) :=
  if length pathKeys =? 0 then Normal results
  else
    let '(accessor, pathKeys) := Array_pop pathKeys in
    valueAtPath ← traverseBasedOnPath obj pathKeys;
    if negb (is_undefined valueAtPath) then
      finalValue ←
        (if Array_isArray valueAtPath then
           mapped ← Array_map (λ item, opt_member item (property_key accessor)) valueAtPath;
           Array_filter Boolean mapped
         else opt_member valueAtPath (property_key accessor));
      if negb (is_undefined finalValue) then Normal (results ++ [finalValue])
      else Normal results
    else Normal results.

Fixpoint for_allPaths (obj : value) (results : list value) (allPaths : list (list string))
    : completion (list value) :=
  match allPaths with
  | [] => Normal results
  | pathKeys :: rest =>
      results ← path_iteration obj results pathKeys;
      for_allPaths obj results rest
  end.

(** [getValuesFromObjectByPath(obj, paths)] *)
Definition getValuesFromObjectByPath (obj : value) (paths : paths_arg) : completion value :=
  let allPaths :=
    match paths with
    | PathArray ps => map (String_split slash) ps
    | PathString p => [String_split slash p]
    end in
  results ← for_allPaths obj [] allPaths;
  Normal (if 1 <? length results then VArray results
          else default VUndefined (results !! 0)).

(** *** The contract of section 4.1, as functions

    The same two operations as the specification words them: values
    instead of completions, one result per path, and the output policy
    applied to the sequence of results. *)

(** The value of [v?.[k]]. *)
Definition opt_read (v : value) (k : string) : value :=
  if is_nullish v then VUndefined else get v k.

Definition keep_truthy (xs : list value) : list value :=
  filter (λ x, Boolean x = true) xs.

Definition flatten (xs : list value) : list value := concat (map flat_item xs).

(** [traverse(document, prefixSegments)] *)
Fixpoint traverse (current : value) (segments : list string) : value :=
  match segments with
  | [] => current
  | segment :: rest =>
      if is_nullish current then current
      else if decide (segment = wildcard) then
        match current with
        | VArray xs => traverse (VArray (flatten (keep_truthy xs))) rest
        | _ => VUndefined
        end
      else
        match current with
        | VArray xs =>
            traverse (VArray (flatten (keep_truthy (map (λ x, opt_read x segment) xs)))) rest
        | _ => traverse (opt_read current segment) rest
        end
  end.

(** Steps 1 to 6 for one path: what the path contributes, if anything. *)
Definition path_result (obj : value) (segments : list string) : option value :=
  match last segments with
  | None => None
  | Some accessor =>
      match traverse obj (removelast segments) with
      | VUndefined => None
      | VArray xs => Some (VArray (keep_truthy (map (λ x, opt_read x accessor) xs)))
      | intermediate =>
          let final := opt_read intermediate accessor in
          if is_undefined final then None else Some final
      end
  end.

(** [pathOrPaths] normalised to a sequence of segment sequences. *)
Definition all_paths (paths : paths_arg) : list (list string) :=
  match paths with
  | PathArray ps => map (String_split slash) ps
  | PathString p => [String_split slash p]
  end.

(** The result sequence: the contributions of the paths, in order. *)
Definition per_path_results (obj : value) (paths : paths_arg) : list value :=
  omap (path_result obj) (all_paths paths).

(** The output policy. *)
Definition unwrap (results : list value) : value :=
  match results with
  | [] => VUndefined
  | [v] => v
  | _ => VArray results
  end.

(** Step 5: the final value of a path from its intermediate value. *)
Definition final_value (intermediate : value) (accessor : string) : value :=
  match intermediate with
  | VArray xs => VArray (keep_truthy (map (λ x, opt_read x accessor) xs))
  | _ => opt_read intermediate accessor
  end.

(** *** Reads without arrays

    [obj?.[k1]?.[k2]...]: what optional chaining alone reads along a list
    of segments, the marker reading as [undefined]; and the traversals on
    which no array is met, neither on the way nor at the end. *)

Definition plain_read (v : value) (segment : string) : value :=
  if decide (segment = wildcard) then VUndefined else opt_read v segment.

Definition chain (v : value) (segments : list string) : value :=
  foldl plain_read v segments.

Fixpoint array_free (v : value) (segments : list string) : bool :=
  match segments with
  | [] => negb (Array_isArray v)
  | segment :: rest => negb (Array_isArray v) && array_free (plain_read v segment) rest
  end.

End Host.

(** A host whose prototypes hold nothing: every property that a value does
    not hold itself reads as [undefined].  The closed examples are run in
    it; they read own properties and keys that no built-in prototype has. *)
Definition bare : host := λ _ _, VUndefined.

(** Document literals. *)
Definition num (z : Z) : value := VNumber (number_of_Z z).
Definition obj1 (k : string) (v : value) : value := VObject {[ k := v ]}.

End Tree.

(** ** Documents in a heap *)

Module Store.

(** Arrays and objects live in cells of a heap and are known by their
    location; a value is a primitive, a reference to a cell, or an object of
    the host.  A new cell is put at the end of the heap, so the location of
    a new array is the length of the heap before. *)
Abbreviation loc := nat.

Inductive value : Type :=
  | VUndefined
  | VNull
  | VBool (b : bool)
  | VNumber (x : number)
  | VString (s : string)
  | VRef (l : loc)
  | VHost (name : string).

Inductive cell : Type :=
  | Arr (xs : list value)
  | Obj (fields : gmap string value).

Abbreviation heap := (list cell).

(** A computation reads and updates the heap and completes normally or
    throws. *)
Definition M (A : Type) : Type := heap → completion A * heap.

Definition ret {A} (a : A) : M A := λ h, (Normal a, h).

Definition bind {A B} (m : M A) (f : A → M B) : M B := λ h,
  match m h with
  | (Normal a, h') => f a h'
  | (Throw e, h') => (Throw e, h')
  end.

Definition throw {A} (e : exn) : M A := λ h, (Throw e, h).

Declare Scope js_scope.
Delimit Scope js_scope with js.
Notation "x <- m ;; k" := (bind m (λ x, k))
  (at level 100, m at next level, right associativity) : js_scope.
Notation "m ;; k" := (bind m (λ _, k))
  (at level 100, right associativity) : js_scope.
Open Scope js_scope.

Fixpoint mapM_heap {A B} (f : A → M B) (xs : list A) : M (list B) :=
  match xs with
  | [] => ret []
  | x :: rest => y <- f x ;; ys <- mapM_heap f rest ;; ret (y :: ys)
  end.

(** The primitive accesses to the heap. *)
Definition alloc (c : cell) : M value := λ h, (Normal (VRef (length h)), h ++ [c]).

Definition store (l : loc) (c : cell) : M unit := λ h, (Normal tt, <[l := c]> h).

Definition array_at (h : heap) (v : value) : option (list value) :=
  match v with
  | VRef l => match h !! l with Some (Arr xs) => Some xs | _ => None end
  | _ => None
  end.

(** The elements of an array; a receiver that is not an array has none of
    the array methods, and calling one throws. *)
Definition elements (arr : value) : M (list value) := λ h,
  match array_at h arr with
  | Some xs => (Normal xs, h)
  | None => (Throw TypeError, h)
  end.

Definition is_undefined (v : value) : bool :=
  match v with VUndefined => true | _ => false end.

Definition is_nullish (v : value) : bool :=
  match v with VUndefined | VNull => true | _ => false end.

Definition Boolean (v : value) : bool :=
  match v with
  | VUndefined | VNull => false
  | VBool b => b
  | VNumber x => number_truthy x
  | VString s => negb (bool_decide (s = EmptyString))
  | VRef _ | VHost _ => true
  end.

Definition own_property (h : heap) (v : value) (k : string) : option value :=
  match v with
  | VString s =>
      if decide (k = "length") then Some (VNumber (number_of_nat (String.length s)))
      else i ← index_of_key k; c ← nth_index (chars s) i;
           Some (VString (String c EmptyString))
  | VRef l =>
      match h !! l with
      | Some (Arr xs) =>
          if decide (k = "length") then Some (VNumber (number_of_nat (length xs)))
          else i ← index_of_key k; nth_index xs i
      | Some (Obj fields) => fields !! k
      | None => None
      end
  | _ => None
  end.

(** What belongs to the host: the properties found on the prototype chain,
    and the conversion to a property key of a value that is a number or an
    object.  Both read the heap and leave it as it is.  A property of the
    prototype chain may be an accessor, and its getter may throw: [caller]
    and [arguments] of [Function.prototype] do, on the constructor that
    every object inherits. *)
Record host : Type := Host {
  inherited : heap → value → string → completion value;
  to_string : heap → value → string;
}.

(** The value of a read that completed. *)
Definition value_of (c : completion value) : value :=
  match c with
  | Normal v => v
  | Throw _ => VUndefined
  end.

Section Host.

Variable env : host.

(** The property key a value denotes. *)
Definition to_property_key (h : heap) (k : value) : string :=
  match k with
  | VString s => s
  | VUndefined => "undefined"
  | VNull => "null"
  | VBool true => "true"
  | VBool false => "false"
  | _ => to_string env h k
  end.

Definition get (h : heap) (v : value) (k : string) : completion value :=
  match own_property h v k with
  | Some w => Normal w
  | None => inherited env h v k
  end.

(** [v[key]] and [v?.[key]] *)
Definition member (v key : value) : M value := λ h,
  if is_nullish v then (Throw TypeError, h)
  else (get h v (to_property_key h key), h).

Definition opt_member (v key : value) : M value :=
  if is_nullish v then ret VUndefined else member v key.

(** The value of [v?.[k]] for a string [k], read in the heap [h], when the
    read completes. *)
Definition opt_read (h : heap) (v : value) (k : string) : value :=
  if is_nullish v then VUndefined else value_of (get h v k).

(** No read on the prototype chain throws. *)
Definition quiet : Prop := ∀ h v k, ∃ w, inherited env h v k = Normal w.

(** The exception [e] is one that a read on the prototype chain throws. *)
Definition thrown_by_host (e : exn) : Prop := ∃ h v k, inherited env h v k = Throw e.

(** The end [r] of a run is a normal completion that satisfies [Q], or an
    exception of the host. *)
Definition ends_well {A} (r : completion A * heap) (Q : A → heap → Prop) : Prop :=
  match r with
  | (Normal a, h') => Q a h'
  | (Throw e, _) => thrown_by_host e
  end.

Definition Array_isArray (v : value) : M bool := λ h,
  (Normal (bool_decide (is_Some (array_at h v))), h).

Definition Array_length (arr : value) : M nat :=
  xs <- elements arr ;; ret (length xs).

(** [arr[i]] on an array: [undefined] past the end. *)
Definition Array_at (arr : value) (i : nat) : M value :=
  xs <- elements arr ;; ret (default VUndefined (xs !! i)).

(** [arr.map(f)], [arr.filter(p)], [arr.flat()]: the elements are read,
    the callback is run on each, and the result is a new array.  The new
    array is given its location after the callbacks have run; locations
    are not observable, only which cell a reference leads to. *)
Definition Array_map (f : value → M value) (arr : value) : M value :=
  xs <- elements arr ;; ys <- mapM_heap f xs ;; alloc (Arr ys).

Definition Array_filter (p : value → bool) (arr : value) : M value :=
  xs <- elements arr ;; alloc (Arr (filter (λ x, p x = true) xs)).

Definition flat_item (h : heap) (x : value) : list value :=
  match array_at h x with Some ys => ys | None => [x] end.

Definition Array_flat (arr : value) : M value :=
  xs <- elements arr ;; (λ h, alloc (Arr (concat (map (flat_item h) xs))) h).

(** [arr.pop()] and [arr.push(v)] update the cell of the array. *)
Definition Array_pop (arr : value) : M value :=
  xs <- elements arr ;;
  match arr with
  | VRef l => store l (Arr (removelast xs)) ;; ret (default VUndefined (last xs))
  | _ => throw TypeError
  end.

Definition Array_push (arr v : value) : M unit :=
  xs <- elements arr ;;
  match arr with
  | VRef l => store l (Arr (xs ++ [v]))
  | _ => throw TypeError
  end.

(** [s.split('/')]: a new array of strings; a value that is not a string
    has no [split] to call. *)
Definition String_split_call (s : value) : M value :=
  match s with
  | VString s => alloc (Arr (VString <$> String_split slash s))
  | _ => throw TypeError
  end.

Definition is_wildcard (key : value) : bool :=
  match key with VString s => bool_decide (s = wildcard) | _ => false end.

(** The loop of [traverseBasedOnPath] over the elements of [pathKeys].  A
    [for ... of] loop is run over the elements that its array holds when the
    loop starts: neither loop of the two functions writes to the array it
    runs over. *)
Fixpoint traverse_loop (current : value) (keys : list value) : M value :=
  match keys with
  | [] => ret current
  | key :: rest =>
      if is_nullish current then ret current
      else if is_wildcard key then
        isArr <- Array_isArray current ;;
        if negb isArr then ret VUndefined
        else
          mapped <- Array_map (λ item, ret item) current ;;
          kept <- Array_filter Boolean mapped ;;
          current <- Array_flat kept ;;
          traverse_loop current rest
      else
        isArr <- Array_isArray current ;;
        if isArr then
          mapped <- Array_map (λ item, opt_member item key) current ;;
          kept <- Array_filter Boolean mapped ;;
          current <- Array_flat kept ;;
          traverse_loop current rest
        else
          current <- opt_member current key ;;
          traverse_loop current rest
  end.

(** [traverseBasedOnPath(obj, pathKeys)], [pathKeys] an array. *)
Definition traverseBasedOnPath (obj pathKeys : value) : M value :=
  keys <- elements pathKeys ;; traverse_loop obj keys.

(** The body of the loop of [getValuesFromObjectByPath]. *)
Definition path_iteration (obj results pathKeys : value) : M unit :=
  len <- Array_length pathKeys ;;
  if len =? 0 then ret tt
  else
    accessor <- Array_pop pathKeys ;;
    valueAtPath <- traverseBasedOnPath obj pathKeys ;;
    if negb (is_undefined valueAtPath) then
      isArr <- Array_isArray valueAtPath ;;
      finalValue <-
        (if isArr : bool then
           mapped <- Array_map (λ item, opt_member item accessor) valueAtPath ;;
           Array_filter Boolean mapped
         else opt_member valueAtPath accessor) ;;
      if negb (is_undefined finalValue) then Array_push results finalValue
      else ret tt
    else ret tt.

Fixpoint for_allPaths (obj results : value) (allPaths : list value) : M unit :=
  match allPaths with
  | [] => ret tt
  | pathKeys :: rest =>
      path_iteration obj results pathKeys ;; for_allPaths obj results rest
  end.

(** [getValuesFromObjectByPath(obj, paths)] *)
Definition getValuesFromObjectByPath (obj paths : value) : M value :=
  isArr <- Array_isArray paths ;;
  allPaths <-
    (if isArr : bool then Array_map String_split_call paths
     else pathKeys <- String_split_call paths ;; alloc (Arr [pathKeys])) ;;
  results <- alloc (Arr []) ;;
  pathKeysList <- elements allPaths ;;
  for_allPaths obj results pathKeysList ;;
  len <- Array_length results ;;
  if 1 <? len then ret results else Array_at results 0.

End Host.

(** *** The caller's cells

    [n] is the size of the heap the caller hands over.  A value is [fresh]
    when it is not a reference into those [n] cells. *)
Definition fresh (n : nat) (v : value) : Prop :=
  match v with VRef l => n ≤ l | _ => True end.

Definition is_array (c : cell) : Prop :=
  match c with Arr _ => True | Obj _ => False end.

(** [frame n h h']: from [h] to [h'] the caller's [n] cells are left as
    they are, and if the cells beyond them were all arrays they still are. *)
Definition frame (n : nat) (h h' : heap) : Prop :=
  take n h' = take n h ∧ (Forall is_array (drop n h) → Forall is_array (drop n h')).

(** [triple n P m Q]: run from a heap [h] that holds the caller's [n] cells
    and satisfies [P], the computation [m] ends, whether it completes or
    throws, in a heap [h'] with [frame n h h'], and a normal result
    satisfies [Q]. *)
Definition triple (n : nat) {A} (P : heap → Prop) (m : M A) (Q : A → heap → Prop) : Prop :=
  ∀ h, n ≤ length h → P h →
    frame n h (m h).2 ∧ ∀ a, (m h).1 = Normal a → Q a (m h).2.

(** The heap property that [allPaths] holds fresh arrays only. *)
Definition holds_fresh (n : nat) (v : value) (h : heap) : Prop :=
  ∃ ys, array_at h v = Some ys ∧ Forall (fresh n) ys.

Definition anyheap : heap → Prop := λ _, True.

(** [m] leaves the caller's cells alone. *)
Definition safe (n : nat) {A} (m : M A) : Prop := triple n anyheap m (λ _ _, True).

(** ... and its result is fresh. *)
Definition makes_fresh (n : nat) (m : M value) : Prop :=
  triple n anyheap m (λ v _, fresh n v).

(** A host whose prototypes hold nothing. *)
Definition bare : host := Host (λ _ _ _, Normal VUndefined) (λ _ _, "[object Object]").

(** A host with the constructor of plain objects and the accessors that
    throw on it: [({}).constructor] is the function [Object], and
    [Object.caller] and [Object.arguments] throw a [TypeError]. *)
Definition strict_functions : host :=
  Host (λ h v k,
          match v with
          | VRef l =>
              match h !! l with
              | Some (Obj _) =>
                  if decide (k = "constructor") then Normal (VHost "Object")
                  else Normal VUndefined
              | _ => Normal VUndefined
              end
          | VHost _ =>
              if decide (k = "caller") then Throw TypeError
              else if decide (k = "arguments") then Throw TypeError
              else Normal VUndefined
          | _ => Normal VUndefined
          end)
       (λ _ _, "[object Object]").

Definition num (z : Z) : value := VNumber (number_of_Z z).

(** The document [{a: 1}] in a heap of one cell. *)
Definition a1_heap : heap := [ Obj {[ "a" := num 1 ]} ].

(** The document [{items: [{v:1},{v:2},{v:0}]}] (cell 4) and the array of
    paths [["items/v", "q"]] (cell 5) in a heap of six cells. *)
Definition items_heap : heap :=
  [ Obj {[ "v" := num 1 ]}; Obj {[ "v" := num 2 ]}; Obj {[ "v" := num 0 ]};
    Arr [VRef 0; VRef 1; VRef 2];
    Obj {[ "items" := VRef 3 ]};
    Arr [VString "items/v"; VString "q"] ].

(** The document [{a: []}] (cell 1, its array in cell 0) and the document
    [{items: [{w: 1}]}] (cell 4). *)
Definition empties_heap : heap :=
  [ Arr []; Obj {[ "a" := VRef 0 ]};
    Obj {[ "w" := num 1 ]}; Arr [VRef 2]; Obj {[ "items" := VRef 3 ]} ].

(** A heap with a cycle: the object in cell 0 holds itself and the array
    of cell 1, which holds the object and itself. *)
Definition cyclic_heap : heap :=
  [ Obj (<[ "self" := VRef 0 ]> {[ "items" := VRef 1 ]}); Arr [VRef 0; VRef 1] ].

End Store.

(** ** The two embeddings side by side *)

(** [denotes ok h v t]: in the heap [h] the value [v] stands for the tree
    [t], and the cells read on the way are at locations that satisfy [ok]. *)
Inductive denotes (ok : nat → Prop) (h : list Store.cell) : Store.value → Tree.value → Prop :=
  | denotes_undefined : denotes ok h Store.VUndefined Tree.VUndefined
  | denotes_null : denotes ok h Store.VNull Tree.VNull
  | denotes_bool b : denotes ok h (Store.VBool b) (Tree.VBool b)
  | denotes_number x : denotes ok h (Store.VNumber x) (Tree.VNumber x)
  | denotes_string s : denotes ok h (Store.VString s) (Tree.VString s)
  | denotes_host name : denotes ok h (Store.VHost name) (Tree.VHost name)
  | denotes_array l xs ts :
      ok l → h !! l = Some (Store.Arr xs) → Forall2 (denotes ok h) xs ts →
      denotes ok h (Store.VRef l) (Tree.VArray ts)
  | denotes_object l fields tfields :
      ok l → h !! l = Some (Store.Obj fields) →
      (∀ k, option_Forall2 (denotes ok h) (fields !! k) (tfields !! k)) →
      denotes ok h (Store.VRef l) (Tree.VObject tfields).

Definition everywhere : nat → Prop := λ _, True.

(** The argument [paths] in the heap: a string, or an array of strings. *)
Inductive paths_denote (h : list Store.cell) : Store.value → paths_arg → Prop :=
  | paths_denote_string p : paths_denote h (Store.VString p) (PathString p)
  | paths_denote_array l ps :
      h !! l = Some (Store.Arr (Store.VString <$> ps)) →
      paths_denote h (Store.VRef l) (PathArray ps).

(** The two hosts find the same inherited properties, and no read on the
    prototype chain throws. *)
Definition hosts_agree (env : Store.host) (inh : Tree.host) : Prop :=
  Store.quiet env
  ∧ ∀ ok h v t k w, denotes ok h v t →
      Store.inherited env h v k = Normal w → denotes ok h w (inh t k).

(** [grows ok h h']: the cells at the locations [ok] read the same in [h'],
    and [h'] is no shorter. *)
Definition grows (ok : nat → Prop) (h h' : list Store.cell) : Prop :=
  (∀ l c, ok l → h !! l = Some c → h' !! l = Some c) ∧ length h ≤ length h'.

(** The heap when the loop of [getValuesFromObjectByPath] starts: the
    caller's cells, one array of segments per path, the array [allPaths]
    and the empty array [results]. *)
Definition split_cells (ps : list string) : list Store.cell :=
  map (λ p, Store.Arr (Store.VString <$> String_split slash p)) ps.

Definition loop_heap (h : list Store.cell) (ps : list string) : list Store.cell :=
  h ++ split_cells ps
    ++ [Store.Arr (Store.VRef <$> seq (length h) (length ps)); Store.Arr []].

(** The tree that cell 4 of [Store.items_heap] stands for. *)
Definition items_tree : Tree.value :=
  Tree.obj1 "items"
    (Tree.VArray [Tree.obj1 "v" (Tree.num 1); Tree.obj1 "v" (Tree.num 2);
                  Tree.obj1 "v" (Tree.num 0)]).

(** ** Mixing colours

    [mixColors] and [updateToastColors] of [package/js/toast.js], over the
    string and number operations they call. *)

#[global] Instance number_eq_dec : EqDecision number.
Proof. unfold number. solve_decision. Defined.

Module Toast.

(** [s.replace(c, '')] for a one-character pattern: the first occurrence of
    [c] is taken out. *)
Fixpoint remove_first (c : ascii) (s : string) : string :=
  match s with
  | EmptyString => EmptyString
  | String a rest => if decide (a = c) then rest else String a (remove_first c rest)
  end.

(** [s.substring(start, stop)]: the arguments are swapped when out of
    order and clamped to the length of the string. *)
Definition String_substring (start stop : nat) (s : string) : string :=
  String.substring (start `min` stop) ((start `max` stop) - (start `min` stop)) s.

(** [s.padStart(n, fill)] for a one-character [fill]. *)
Definition String_padStart (n : nat) (fill : ascii) (s : string) : string :=
  String.string_of_list_ascii (replicate (n - String.length s) fill) +:+ s.

(** *** [parseInt(s, 16)] *)

(** The white space that [parseInt] skips, among the code units below 256. *)
Definition is_white_space (c : ascii) : bool :=
  bool_decide (N_of_ascii c ∈ [9; 10; 11; 12; 13; 32; 160]%N).

Fixpoint trim_start (s : string) : string :=
  match s with
  | String c rest => if is_white_space c then trim_start rest else s
  | EmptyString => EmptyString
  end.

Definition hex_digit_value (c : ascii) : option N :=
  let n := N_of_ascii c in
  if ((48 <=? n) && (n <=? 57))%N then Some (n - 48)%N
  else if ((97 <=? n) && (n <=? 102))%N then Some (n - 87)%N
  else if ((65 <=? n) && (n <=? 70))%N then Some (n - 55)%N
  else None.

(** The value of the longest prefix of hexadecimal digits; [None] when
    the prefix is empty. *)
Fixpoint hex_prefix_value (acc : option N) (s : string) : option N :=
  match s with
  | String c rest =>
      match hex_digit_value c with
      | Some d => hex_prefix_value (Some (16 * default 0 acc + d)%N) rest
      | None => acc
      end
  | EmptyString => acc
  end.

Definition strip_sign (s : string) : bool * string :=
  match s with
  | String "-"%char rest => (true, rest)
  | String "+"%char rest => (false, rest)
  | _ => (false, s)
  end.

Definition strip_0x (s : string) : string :=
  match s with
  | String "0"%char (String "x"%char rest) => rest
  | String "0"%char (String "X"%char rest) => rest
  | _ => s
  end.

Definition parseInt16 (s : string) : number :=
  let '(negative, digits) := strip_sign (trim_start s) in
  match hex_prefix_value None (strip_0x digits) with
  | None => S754_nan
  | Some 0%N => S754_zero negative
  | Some n => number_of_Z (if negative then - Z.of_N n else Z.of_N n)
  end.

(** *** [Math.round] and [toString(16)]

    What [Math.round] returns is an integer, a zero of either sign, an
    infinity or NaN; [toString(16)] is applied to nothing else. *)
Inductive integral : Type :=
  | INaN
  | IInfinity (negative : bool)
  | INegZero
  | IInteger (z : Z).

#[global] Instance integral_eq_dec : EqDecision integral.
Proof. solve_decision. Defined.

(** The integer nearest to [x], the larger one on a tie: the floor of
    [x + 1/2], computed on the exact value [m * 2^e]. *)
Definition Math_round (x : number) : integral :=
  match x with
  | S754_nan => INaN
  | S754_infinity negative => IInfinity negative
  | S754_zero negative => if negative then INegZero else IInteger 0
  | S754_finite negative m e =>
      let signed := if negative then Z.neg m else Z.pos m in
      let z := match e with
               | Z.neg k => (2 * signed + 2 ^ Z.pos k) `div` 2 ^ (Z.pos k + 1)
               | _ => signed * 2 ^ e
               end%Z in
      if negative && bool_decide (z = 0%Z) then INegZero else IInteger z
  end.

Definition hex_char (n : N) : ascii :=
  ascii_of_N (if (n <? 10)%N then 48 + n else 87 + n)%N.

Fixpoint hex_digits (fuel : nat) (n : N) (acc : string) : string :=
  match fuel with
  | 0 => acc
  | S fuel =>
      let acc := String (hex_char (n `mod` 16)%N) acc in
      if (n <? 16)%N then acc else hex_digits fuel (n `div` 16)%N acc
  end.

Definition hex_of_N (n : N) : string := hex_digits (S (N.size_nat n)) n EmptyString.

Definition toString16 (x : integral) : string :=
  match x with
  | INaN => "NaN"
  | IInfinity false => "Infinity"
  | IInfinity true => "-Infinity"
  | INegZero => "0"
  | IInteger z => if (z <? 0)%Z then "-" +:+ hex_of_N (Z.abs_N z) else hex_of_N (Z.abs_N z)
  end.

(** *** Arithmetic on doubles *)
Definition Number_sub : number → number → number := SFsub 53 1024.
Definition Number_mul : number → number → number := SFmul 53 1024.
Definition Number_add : number → number → number := SFadd 53 1024.

(** The literal [0.d] for a digit [d]: the double nearest to [d/10]. *)
Definition tenths (d : Z) : number := SFdiv 53 1024 (number_of_Z d) (number_of_Z 10).

(** *** [mixColors] *)
Definition d2h (d : integral) : string := String_padStart 2 "0"%char (toString16 d).
Definition h2d (h : string) : number := parseInt16 h.

(** [Math.round(c1 * (1 - weight) + c2 * weight)] *)
Definition mix (c1 c2 weight : number) : integral :=
  Math_round (Number_add (Number_mul c1 (Number_sub (number_of_Z 1) weight))
                         (Number_mul c2 weight)).

(** The digits that one turn of the loop appends. *)
Definition mix_channel (color1 color2 : string) (weight : number) (i : nat) : string :=
  let c1 := h2d (String_substring (i * 2) (i * 2 + 2) color1) in
  let c2 := h2d (String_substring (i * 2) (i * 2 + 2) color2) in
  d2h (mix c1 c2 weight).

Definition mixColors (color1 color2 : string) (weight : number) : string :=
  let color1 := remove_first "#"%char color1 in
  let color2 := remove_first "#"%char color2 in
  foldl (λ mixedColor i, mixedColor +:+ mix_channel color1 color2 weight i) "#" (seq 0 3).

(** *** [updateToastColors]

    What the function does to the document is the sequence of its
    [style.setProperty(name, value)] calls on the root element. *)
Definition updateToastColors (color : string) : list (string * string) :=
  [ ("--toast-color", color);
    ("--toast-color-lighter-40", mixColors color "#FFFFFF" (tenths 4));
    ("--toast-color-darker-60", mixColors color "#000000" (tenths 6));
    ("--toast-color-darker-20", mixColors color "#000000" (tenths 2)) ].

(** A colour written [#rrggbb], in lower or upper case. *)
Definition digit_char (upper : bool) (n : nat) : ascii :=
  ascii_of_nat (if n <? 10 then 48 + n else if upper then 55 + n else 87 + n).

Definition two_hex (upper : bool) (n : nat) : string :=
  String (digit_char upper (n / 16)) (String (digit_char upper (n mod 16)) EmptyString).

Definition hex_color (upper : bool) (r g b : nat) : string :=
  String "#"%char (two_hex upper r +:+ two_hex upper g +:+ two_hex upper b).

(** The integer nearest to [k / 10]. *)
Definition nearest_tenth (k : nat) : nat := (k + 5) / 10.

(** A channel mixed with 40% of white, with 60% and with 20% of black. *)
Definition lighter_40 (n : nat) : nat := nearest_tenth (6 * n + 4 * 255).
Definition darker_60 (n : nat) : nat := nearest_tenth (4 * n).
Definition darker_20 (n : nat) : nat := nearest_tenth (8 * n).

End Toast.

(** ** Requests

    The asynchronous functions of [utensils.js] that fetch a resource.  An
    [async] function is read by what awaiting it gives: the value it is
    fulfilled with or the reason it is rejected with, together with the
    calls of [console.error] made on the way. *)

Module Requests.

(** What is thrown or rejected with: an exception of the modelled code, an
    [Error] of the host (a failed fetch, a body that does not parse), or any
    other value. *)
Inductive reason : Type :=
  | Exception (e : exn)
  | HostError (message : string)
  | NotAnError (v : Tree.value).

(** [err instanceof Error] *)
Definition instanceof_Error (err : reason) : bool :=
  match err with
  | Exception TypeError | HostError _ => true
  | NotAnError _ => false
  end.

Inductive outcome (A : Type) : Type :=
  | Fulfilled (a : A)
  | Rejected (err : reason).
Arguments Fulfilled {A} a.
Arguments Rejected {A} err.

(** The arguments of one call of [console.error]. *)
Definition console_call : Type := string * reason.

Definition async (A : Type) : Type := outcome A * list console_call.

Definition resolve {A} (a : A) : async A := (Fulfilled a, []).
Definition await {A} (p : outcome A) : async A := (p, []).
Definition then_ {A B} (m : async A) (k : A → async B) : async B :=
  match m with
  | (Fulfilled a, log) => let '(b, log') := k a in (b, log ++ log')
  | (Rejected err, log) => (Rejected err, log)
  end.

Declare Scope async_scope.
Delimit Scope async_scope with async.
Notation "x <- m ;; k" := (then_ m (λ x, k))
  (at level 100, m at next level, right associativity) : async_scope.
Open Scope async_scope.

(** A response: its [ok] flag and what the promises of [text()] and
    [json()] settle to.  A body that parses gives a document in the heap:
    from the heap at the time, [json] gives the document and the heap that
    holds it. *)
Record Response : Type := {
  ok : bool;
  text : outcome string;
  json : list Store.cell → outcome Store.value * list Store.cell
}.

(** The second argument of [fetch]. *)
Record RequestInit : Type := { headers : list (string * string) }.

(** [html.includes(text)] *)
Definition String_includes (html text : string) : bool :=
  bool_decide (is_Some (String.index 0 text html)).

(** [handleError(err)] *)
Definition handleError (err : reason) : async unit :=
  (Fulfilled (), [("API request failed", err)]).

(** The argument [onError]: left out (or [undefined]), so that the default
    applies; a falsy value such as [null]; or a function. *)
Inductive onError_arg : Type :=
  | Omitted
  | Falsy
  | Handler (f : reason → async unit).

Section Host.
Variable fetch : string → option RequestInit → outcome Response.
Variable env : Store.host.

(** [getRequest(path, onError = handleError)] *)
Definition getRequest (path : string) (onError : onError_arg) : async (option Response) :=
  let onError :=
    match onError with
    | Omitted => Some handleError
    | Falsy => None
    | Handler f => Some f
    end in
  match fetch path (Some {| headers := [] |}) with
  | Fulfilled response => resolve (if ok response then Some response else None)
  | Rejected err =>
      match instanceof_Error err, onError with
      | true, Some f => (_ <- f err;; resolve None)
      | _, _ => resolve None
      end
  end.

(** [doesHTMLIncludeText(path, text)] *)
Definition doesHTMLIncludeText (path text : string) : async bool :=
  res <- getRequest path Omitted;;
  match res with
  | None => resolve false
  | Some res =>
      html <- await (Requests.text res);;
      resolve (String_includes html text)
  end.

Definition data_store_url (storeName : string) : string :=
  "https://toby-theblock.github.io/utilities/data-store/" +:+ storeName +:+ ".json".

(** [getDataFromDataStore(storeName, sourcePaths)], run from the heap [h]:
    what the promise settles to, and the heap then.  [sourcePaths] is any
    value; an exception of the query rejects the promise. *)
Definition getDataFromDataStore (storeName : string) (sourcePaths : Store.value)
    (h : list Store.cell) : async Store.value * list Store.cell :=
  match fetch (data_store_url storeName) None with
  | Rejected err => ((Rejected err, []), h)
  | Fulfilled response =>
      if negb (ok response) then (resolve Store.VUndefined, h)
      else
        match json response h with
        | (Rejected err, h) => ((Rejected err, []), h)
        | (Fulfilled storeData, h) =>
            match Store.getValuesFromObjectByPath env storeData sourcePaths h with
            | (Normal v, h) => (resolve v, h)
            | (Throw e, h) => ((Rejected (Exception e), []), h)
            end
        end
  end.

End Host.

(** A host in which every request is answered with [response]. *)
Definition answers (response : Response) : string → option RequestInit → outcome Response :=
  λ _ _, Fulfilled response.

(** A host in which every request fails with [err]. *)
Definition fails (err : reason) : string → option RequestInit → outcome Response :=
  λ _ _, Rejected err.

(** A response with a status that is not [ok], and one whose body is not
    JSON. *)
Definition not_found : Response :=
  {| ok := false; text := Fulfilled "Not Found";
     json := λ h, (Rejected (HostError "Unexpected token N in JSON"), h) |}.

Definition malformed : Response :=
  {| ok := true; text := Fulfilled "";
     json := λ h, (Rejected (HostError "Unexpected end of JSON input"), h) |}.

(** An [ok] response with the body [[1]]. *)
Definition list_store : Response :=
  {| ok := true; text := Fulfilled "[1]";
     json := λ h, (Fulfilled (Store.VRef (length h)), h ++ [Store.Arr [Store.num 1]]) |}.

End Requests.

(** ** Debounced calls

    [handleChange] and the global [autoSaveTimeout], over the timers of the
    host.  A timer is pending from [setTimeout] until it fires or is
    cleared; the host fires a pending timer at some moment not before it is
    due.  Handles are positive integers, given out in order.

    The delay handed to [setTimeout] is a number, and what the host makes
    of it is the host's: [timer_delay] gives the milliseconds it waits at
    least.  A browser converts the delay to a 32-bit signed integer and
    takes 0 for a negative one, so that a delay of [2^31] is no delay;
    other hosts take 1 for a delay out of range. *)

Module Debounce.

(** The integer part of a number; 0 for NaN and the infinities. *)
Definition truncate (x : number) : Z :=
  match x with
  | S754_finite negative m e =>
      let z := match e with
               | Z.neg k => Z.pos m `div` 2 ^ Z.pos k
               | _ => Z.pos m * 2 ^ e
               end%Z in
      if negative then (- z)%Z else z
  | _ => 0%Z
  end.

(** The conversion to a 32-bit signed integer. *)
Definition ToInt32 (x : number) : Z :=
  let i := (truncate x `mod` 2 ^ 32)%Z in
  if (i <? 2 ^ 31)%Z then i else (i - 2 ^ 32)%Z.

(** The delay of a timer in a browser. *)
Definition html_timer_delay (delay : number) : nat := Z.to_nat (Z.max 0 (ToInt32 delay)).

Section Callbacks.
Context {callback : Type}.
Variable timer_delay : number → nat.

Record state : Type := State {
  autoSaveTimeout : option nat;          (* [null], or the handle last stored *)
  timers : gmap nat (callback * nat);    (* pending: the callback and when it is due *)
  next_handle : nat;
  now : nat;                             (* the clock, in milliseconds *)
  called : list callback                 (* the callbacks run so far, in order *)
}.

Definition initial : state :=
  {| autoSaveTimeout := None; timers := ∅; next_handle := 1; now := 0; called := [] |}.

(** [setTimeout(f, delay)]: the new handle and the state with the timer. *)
Definition setTimeout (f : callback) (delay : number) (st : state) : nat * state :=
  (next_handle st,
   {| autoSaveTimeout := autoSaveTimeout st;
      timers := <[next_handle st := (f, now st + timer_delay delay)]> (timers st);
      next_handle := S (next_handle st);
      now := now st;
      called := called st |}).

(** [clearTimeout(handle)]: nothing happens for a handle with no pending
    timer. *)
Definition clearTimeout (handle : nat) (st : state) : state :=
  {| autoSaveTimeout := autoSaveTimeout st;
     timers := delete handle (timers st);
     next_handle := next_handle st;
     now := now st;
     called := called st |}.

(** [if (autoSaveTimeout)]: [null] and 0 are falsy. *)
Definition truthy (handle : option nat) : bool :=
  match handle with
  | Some (S _) => true
  | Some 0 | None => false
  end.

(** [handleChange(callbackFunction, delay = 500)] *)
Definition handleChange (callbackFunction : callback) (delay : option number) (st : state)
    : state :=
  let delay := default (number_of_Z 500) delay in
  let st := if truthy (autoSaveTimeout st)
            then clearTimeout (default 0 (autoSaveTimeout st)) st else st in
  let '(handle, st) := setTimeout callbackFunction delay st in
  {| autoSaveTimeout := Some handle;
     timers := timers st;
     next_handle := next_handle st;
     now := now st;
     called := called st |}.

(** What happens between two looks at the state: the program calls
    [handleChange], time passes, or the host fires a timer. *)
Inductive event : Type :=
  | Call (callbackFunction : callback) (delay : option number)
  | Wait (ms : nat)
  | Fire (handle : nat).

Definition step (st : state) (ev : event) : state :=
  match ev with
  | Call callbackFunction delay => handleChange callbackFunction delay st
  | Wait ms =>
      {| autoSaveTimeout := autoSaveTimeout st; timers := timers st;
         next_handle := next_handle st; now := now st + ms; called := called st |}
  | Fire handle =>
      match timers st !! handle with
      | Some (f, due) =>
          if bool_decide (due ≤ now st) then
            {| autoSaveTimeout := autoSaveTimeout st;
               timers := delete handle (timers st);
               next_handle := next_handle st; now := now st;
               called := called st ++ [f] |}
          else st
      | None => st
      end
  end.

Definition run (st : state) (evs : list event) : state := foldl step st evs.

Definition is_call (ev : event) : bool :=
  match ev with Call _ _ => true | _ => false end.

(** The time that passes during [evs]. *)
Fixpoint waited (evs : list event) : nat :=
  match evs with
  | [] => 0
  | Wait ms :: evs => ms + waited evs
  | _ :: evs => waited evs
  end.

(** What holds of every state the program can be in: handles are positive
    and below the next one, and the only timer that can be pending is the
    one whose handle [autoSaveTimeout] holds. *)
Definition settled (st : state) : Prop :=
  0 < next_handle st
  ∧ (∀ handle, autoSaveTimeout st = Some handle → 0 < handle < next_handle st)
  ∧ (∀ handle, is_Some (timers st !! handle) → autoSaveTimeout st = Some handle).

(** Between two calls: the timer of the last call is pending and nothing
    has run, or it has fired, once, not before it was due. *)
Definition pending_or_fired (st0 : state) (f : callback) (due : nat) (st : state) : Prop :=
  (timers st = {[ next_handle st0 := (f, due) ]} ∧ called st = called st0)
  ∨ (timers st = ∅ ∧ called st = called st0 ++ [f] ∧ due ≤ now st).

End Callbacks.
Arguments state : clear implicits.
Arguments event : clear implicits.
(** An edit whose save is still pending after 200 ms, and the events that
    follow the next edit: its timer fires when it is due. *)
Definition first_edit : list (event string) :=
  [Call "save 1" None; Wait 200; Fire 1].

Definition ms_300 : number := number_of_Z 300.

(** The state in a browser after the first edit, the call
    [handleChange("save 2", 300)] and the events [evs]. *)
Definition saved_twice (evs : list (event string)) : state string :=
  run html_timer_delay (handleChange html_timer_delay "save 2" (Some ms_300)
                          (run html_timer_delay initial first_edit)) evs.

Definition then_idle : list (event string) :=
  [Wait 300; Fire 1; Fire 2; Fire 2].

End Debounce.

(** * Properties of the tree embedding *)

Section TreeFacts.

Import Tree.

Variable inherited : host.

Lemma mapM_Normal {A B} (f : A → B) (xs : list A) :
  mapM (λ x, Normal (f x)) xs = Normal (map f xs).
Proof.
  induction xs as [|x xs IH]; [done|].
  cbn [mapM map]. cbn. fold (mapM (λ x, Normal (f x)) xs). by rewrite IH.
Qed.

Lemma opt_member_read v k :
  opt_member inherited v k = Normal (opt_read inherited v k).
Proof. unfold opt_member, member, opt_read. by destruct (is_nullish v). Qed.

Lemma Array_map_read xs k :
  Array_map (λ item, opt_member inherited item k) (VArray xs)
  = Normal (VArray (map (λ x, opt_read inherited x k) xs)).
Proof.
  unfold Array_map.
  assert (mapM (λ item, opt_member inherited item k) xs
          = Normal (map (λ x, opt_read inherited x k) xs)) as ->; [|done].
  induction xs as [|x xs IH]; [done|].
  cbn [mapM map]. rewrite opt_member_read. cbn.
  fold (mapM (λ item, opt_member inherited item k) xs). by rewrite IH.
Qed.

Lemma Array_map_id xs :
  Array_map (λ item, Normal item) (VArray xs) = Normal (VArray xs).
Proof. unfold Array_map. rewrite (mapM_Normal id). by rewrite map_id. Qed.

(** The traversal never throws; its value is the one of section 4.1. *)
Lemma traverseBasedOnPath_traverse current pathKeys :
  traverseBasedOnPath inherited current pathKeys
  = Normal (traverse inherited current pathKeys).
Proof.
  revert current. induction pathKeys as [|key rest IH]; intros current; [done|].
  cbn [traverseBasedOnPath traverse].
  destruct (is_nullish current) eqn:Hn; [done|].
  destruct (decide (key = wildcard)) as [->|Hk].
  - destruct current; try done.
    cbn [Array_isArray negb]. rewrite Array_map_id. cbn. apply IH.
  - destruct current; cbn [Array_isArray];
      try (rewrite opt_member_read; cbn; apply IH).
    rewrite Array_map_read. cbn. apply IH.
Qed.

Lemma last_None_length {A} (xs : list A) : last xs = None ↔ length xs = 0.
Proof.
  destruct xs as [|x xs]; [done|]. split; [|done].
  intros H. exfalso. revert x H. induction xs as [|y ys IH]; intros x H; [done|].
  apply (IH y). exact H.
Qed.

(** One iteration of the loop appends the contribution of its path. *)
Lemma path_iteration_result obj results pathKeys :
  path_iteration inherited obj results pathKeys
  = Normal (results ++ option_list (path_result inherited obj pathKeys)).
Proof.
  unfold path_iteration, path_result, Array_pop.
  destruct (last pathKeys) as [accessor|] eqn:Hlast.
  - destruct (length pathKeys =? 0) eqn:Hlen.
    { apply Nat.eqb_eq, last_None_length in Hlen. congruence. }
    rewrite traverseBasedOnPath_traverse. cbn [mbind completion_bind property_key default].
    destruct (traverse inherited obj (removelast pathKeys)) as [| | | | |xs| |] eqn:Hv;
      cbn [is_undefined negb Array_isArray];
      try (rewrite opt_member_read; cbn [mbind completion_bind];
           destruct (is_undefined _); cbn; by rewrite ?app_nil_r).
    + by rewrite app_nil_r.
    + rewrite Array_map_read. cbn. done.
  - apply last_None_length in Hlast. rewrite Hlast. cbn. by rewrite app_nil_r.
Qed.

Lemma for_allPaths_results obj results allPaths :
  for_allPaths inherited obj results allPaths
  = Normal (results ++ omap (path_result inherited obj) allPaths).
Proof.
  revert results. induction allPaths as [|pathKeys rest IH]; intros results.
  - cbn. by rewrite app_nil_r.
  - cbn [for_allPaths]. rewrite path_iteration_result. cbn [mbind completion_bind].
    rewrite IH. cbn [omap]. unfold omap, list_omap.
    destruct (path_result inherited obj pathKeys); cbn; by rewrite <- ?app_assoc, ?app_nil_r.
Qed.

Lemma getValuesFromObjectByPath_results obj paths :
  getValuesFromObjectByPath inherited obj paths
  = Normal (unwrap (per_path_results inherited obj paths)).
Proof.
  unfold getValuesFromObjectByPath. fold (all_paths paths).
  rewrite for_allPaths_results. cbn [mbind completion_bind app].
  fold (per_path_results inherited obj paths).
  by destruct (per_path_results inherited obj paths) as [|v [|w rs]].
Qed.

(** A single path returns its contribution, [undefined] when it has none. *)
Lemma single_path obj p :
  getValuesFromObjectByPath inherited obj (PathString p)
  = Normal (default VUndefined (path_result inherited obj (String_split slash p))).
Proof.
  rewrite getValuesFromObjectByPath_results.
  unfold per_path_results, all_paths. cbn [omap list_omap].
  by destruct (path_result inherited obj (String_split slash p)).
Qed.

Lemma path_result_snoc obj prefix accessor :
  path_result inherited obj (prefix ++ [accessor])
  = match traverse inherited obj prefix with
    | VUndefined => None
    | VArray xs => Some (VArray (keep_truthy (map (λ x, opt_read inherited x accessor) xs)))
    | intermediate =>
        let final := opt_read inherited intermediate accessor in
        if is_undefined final then None else Some final
    end.
Proof. unfold path_result. by rewrite last_snoc, removelast_last. Qed.

Lemma traverse_nullish current segments :
  is_nullish current = true → traverse inherited current segments = current.
Proof. intros H. destruct segments; [done|]. cbn. by rewrite H. Qed.

Lemma traverse_app current pre rest :
  traverse inherited current (pre ++ rest)
  = traverse inherited (traverse inherited current pre) rest.
Proof.
  revert current. induction pre as [|key pre IH]; intros current; [done|].
  cbn [app traverse].
  destruct (is_nullish current) eqn:Hn.
  { by rewrite traverse_nullish. }
  destruct (decide (key = wildcard)).
  - destruct current; try (by rewrite traverse_nullish). apply IH.
  - destruct current; apply IH.
Qed.

Lemma traverse_Normal current pathKeys v :
  traverseBasedOnPath inherited current pathKeys = Normal v →
  traverse inherited current pathKeys = v.
Proof. rewrite traverseBasedOnPath_traverse. congruence. Qed.

Lemma opt_read_nullish v k : is_nullish v = true → opt_read inherited v k = VUndefined.
Proof. unfold opt_read. by intros ->. Qed.

Lemma chain_undefined segments : chain inherited VUndefined segments = VUndefined.
Proof.
  induction segments as [|k rest IH]; [done|].
  unfold chain in *. cbn [foldl]. unfold plain_read at 2.
  destruct (decide (k = wildcard)); [done|]. by rewrite opt_read_nullish.
Qed.

Lemma plain_read_nullish v k : is_nullish v = true → plain_read inherited v k = VUndefined.
Proof.
  intros H. unfold plain_read. destruct (decide _); [done|]. by apply opt_read_nullish.
Qed.

(** On a traversal that meets no array the accessor reads what optional
    chaining reads. *)
Lemma array_free_chain obj prefix accessor :
  array_free inherited obj prefix = true →
  Array_isArray (traverse inherited obj prefix) = false ∧
  opt_read inherited (traverse inherited obj prefix) accessor
  = opt_read inherited (chain inherited obj prefix) accessor.
Proof.
  revert obj. induction prefix as [|k rest IH]; intros obj Hfree.
  - cbn in *. split; [|done]. by destruct (Array_isArray obj).
  - cbn [array_free] in Hfree. apply andb_true_iff in Hfree as [Hobj Hrest].
    apply negb_true_iff in Hobj.
    cbn [traverse]. unfold chain. cbn [foldl]. fold (chain inherited (plain_read inherited obj k) rest).
    destruct (is_nullish obj) eqn:Hn.
    { split; [done|]. rewrite plain_read_nullish, chain_undefined by done.
      by rewrite opt_read_nullish. }
    destruct (IH _ Hrest) as [IH1 IH2]. unfold plain_read in *.
    destruct (decide (k = wildcard)).
    + destruct obj; try done. all: split; [done|]; by rewrite chain_undefined.
    + by destruct obj.
Qed.

(** Once the current value is an array it stays one. *)
Lemma traverse_array xs segments :
  ∃ ys, traverse inherited (VArray xs) segments = VArray ys.
Proof.
  revert xs. induction segments as [|k rest IH]; intros xs; [by exists xs|].
  cbn [traverse is_nullish]. destruct (decide (k = wildcard)); apply IH.
Qed.

(** A traversal either meets no array or ends at one. *)
Lemma array_met_ends_at_array obj prefix :
  array_free inherited obj prefix = false →
  ∃ xs, traverse inherited obj prefix = VArray xs.
Proof.
  revert obj. induction prefix as [|k rest IH]; intros obj Hfree.
  - cbn in Hfree. apply negb_false_iff in Hfree. destruct obj; try done. by eexists.
  - cbn [array_free] in Hfree. apply andb_false_iff in Hfree as [Hobj|Hrest].
    { apply negb_false_iff in Hobj. destruct obj; try done. apply traverse_array. }
    destruct (IH _ Hrest) as [xs Hxs].
    destruct (Array_isArray obj) eqn:Harr.
    { destruct obj; try done. apply traverse_array. }
    exists xs. rewrite <- Hxs. cbn [traverse]. unfold plain_read in *.
    destruct (is_nullish obj) eqn:Hn.
    { rewrite opt_read_nullish in Hxs by done.
      destruct (decide (k = wildcard)); by rewrite traverse_nullish in Hxs. }
    destruct (decide (k = wildcard)).
    + by rewrite traverse_nullish in Hxs.
    + by destruct obj.
Qed.

End TreeFacts.

(** ** The claims on the tree embedding *)

Section TreeClaims.

Import Tree.

(** C1: for every document and path set, [getValuesFromObjectByPath] applies
    the output policy to the sequence of per-path results: no result gives
    [undefined], exactly one result gives that value itself (not an array
    of one element), and two or more give the whole sequence in order. *)
Theorem extract_applies_unwrap_rule (inherited : host) (obj : value) (paths : paths_arg) :
  getValuesFromObjectByPath inherited obj paths
  = Normal match per_path_results inherited obj paths with
           | [] => VUndefined
           | [v] => v
           | v :: w :: rest => VArray (v :: w :: rest)
           end.
Proof.
  rewrite getValuesFromObjectByPath_results.
  by destruct (per_path_results inherited obj paths) as [|v [|w rest]].
Qed.

Example extract_single_scalar :
  getValuesFromObjectByPath bare (obj1 "a" (obj1 "b" (num 5))) (PathString "a/b")
  = Normal (num 5).
Proof. vm_compute. reflexivity. Qed.

Example extract_missing_key :
  getValuesFromObjectByPath bare (obj1 "a" (obj1 "b" (num 5))) (PathString "a/x")
  = Normal VUndefined.
Proof. vm_compute. reflexivity. Qed.

(** Two paths of which the second finds nothing: the lone value is returned
    unwrapped. *)
Example extract_mixed_arity :
  getValuesFromObjectByPath bare (obj1 "a" (obj1 "b" (num 5))) (PathArray ["a/b"; "a/x"])
  = Normal (num 5).
Proof. vm_compute. reflexivity. Qed.

Example extract_two_results :
  getValuesFromObjectByPath bare (obj1 "a" (obj1 "b" (num 5))) (PathArray ["a/b"; "a/b"])
  = Normal (VArray [num 5; num 5]).
Proof. vm_compute. reflexivity. Qed.

(** C3: absence and present-but-empty are told apart.  An empty sequence of
    per-path results gives [undefined]; a path whose final value is an empty
    array found in the document gives that empty array. *)
Theorem extract_empty_results_vs_empty_array (inherited : host) (obj : value) :
  (∀ paths, per_path_results inherited obj paths = [] →
     getValuesFromObjectByPath inherited obj paths = Normal VUndefined) ∧
  (∀ p prefix accessor intermediate,
     String_split slash p = prefix ++ [accessor] →
     traverseBasedOnPath inherited obj prefix = Normal intermediate →
     Array_isArray intermediate = false →
     opt_member inherited intermediate accessor = Normal (VArray []) →
     getValuesFromObjectByPath inherited obj (PathString p) = Normal (VArray [])).
Proof.
  split.
  - intros paths H. by rewrite getValuesFromObjectByPath_results, H.
  - intros p prefix accessor v Hp Hv Harr Hacc.
    apply traverse_Normal in Hv. rewrite opt_member_read in Hacc.
    injection Hacc as Hacc.
    rewrite single_path, Hp, path_result_snoc, Hv.
    destruct v; cbn in *; try done; try (by rewrite Hacc).
    all: unfold opt_read in Hacc; by cbn in Hacc.
Qed.

Lemma extract_empty_results_vs_empty_array_witness :
  getValuesFromObjectByPath bare (obj1 "b" (num 1)) (PathArray ["a"; "c/d"]) = Normal VUndefined
  ∧ getValuesFromObjectByPath bare (obj1 "a" (VArray [])) (PathString "a") = Normal (VArray []).
Proof.
  split.
  - apply (proj1 (extract_empty_results_vs_empty_array bare (obj1 "b" (num 1)))).
    vm_compute. reflexivity.
  - apply (proj2 (extract_empty_results_vs_empty_array bare (obj1 "a" (VArray [])))
             "a"%string [] "a"%string (obj1 "a" (VArray []))).
    + vm_compute. reflexivity.
    + vm_compute. reflexivity.
    + reflexivity.
    + vm_compute. reflexivity.
Defined.

(** C4: when the current value is an array and the next segment is the
    marker [[n]], the traversal goes on from a new array: the elements of
    the current one, the falsy ones discarded, one level of nesting
    flattened.  With it, [items/[n]/v] on [{items: [[{v:1}],[{v:2}]]}] gives
    [[1, 2]]. *)
Theorem wildcard_keeps_truthy_and_flattens (inherited : host) (xs : list value) (rest : list string) :
  traverseBasedOnPath inherited (VArray xs) (wildcard :: rest)
  = traverseBasedOnPath inherited (VArray (flatten (keep_truthy xs))) rest
  ∧ getValuesFromObjectByPath inherited
      (obj1 "items" (VArray [VArray [obj1 "v" (num 1)]; VArray [obj1 "v" (num 2)]]))
      (PathString "items/[n]/v")
    = Normal (VArray [num 1; num 2]).
Proof.
  split.
  - cbn [traverseBasedOnPath]. cbn [is_nullish Array_isArray negb].
    destruct (decide (wildcard = wildcard)); [|done].
    by rewrite Array_map_id.
  - vm_compute. reflexivity.
Qed.

(** C5: when the current value is an array and the segment is a field name,
    the traversal goes on from the array of the segment looked up on every
    element, the falsy results discarded, one level flattened; the accessor
    over an array intermediate is looked up on every element and the falsy
    results are discarded.  With it, [items/v] on
    [{items: [{v:1},{v:2},{v:0}]}] gives [[1, 2]]. *)
Theorem lookup_distributes_over_array (inherited : host) :
  (∀ xs key rest, key ≠ wildcard →
     traverseBasedOnPath inherited (VArray xs) (key :: rest)
     = traverseBasedOnPath inherited
         (VArray (flatten (keep_truthy (map (λ item, opt_read inherited item key) xs)))) rest) ∧
  (∀ obj prefix accessor xs results,
     traverseBasedOnPath inherited obj prefix = Normal (VArray xs) →
     path_iteration inherited obj results (prefix ++ [accessor])
     = Normal (results ++ [VArray (keep_truthy (map (λ item, opt_read inherited item accessor) xs))])) ∧
  getValuesFromObjectByPath inherited
    (obj1 "items" (VArray [obj1 "v" (num 1); obj1 "v" (num 2); obj1 "v" (num 0)]))
    (PathString "items/v")
  = Normal (VArray [num 1; num 2]).
Proof.
  split; [|split].
  - intros xs key rest Hkey. cbn [traverseBasedOnPath]. cbn [is_nullish Array_isArray].
    destruct (decide (key = wildcard)); [done|].
    by rewrite Array_map_read.
  - intros obj prefix accessor xs results Hv. apply traverse_Normal in Hv.
    by rewrite path_iteration_result, path_result_snoc, Hv.
  - vm_compute. reflexivity.
Qed.

Lemma lookup_distributes_over_array_witness :
  traverseBasedOnPath bare (VArray [obj1 "v" (VArray [num 1]); obj1 "v" (num 0)]) ["v"; "w"]
  = traverseBasedOnPath bare (VArray [num 1]) ["w"]
  ∧ path_iteration bare (obj1 "items" (VArray [obj1 "v" (num 7); VNull])) [VNull] ["items"; "v"]
    = Normal [VNull; VArray [num 7]].
Proof.
  split.
  - apply (proj1 (lookup_distributes_over_array bare)
             [obj1 "v" (VArray [num 1]); obj1 "v" (num 0)] "v"%string ["w"]).
    vm_compute. discriminate.
  - apply (proj1 (proj2 (lookup_distributes_over_array bare))
             (obj1 "items" (VArray [obj1 "v" (num 7); VNull])) ["items"] "v"%string
             [obj1 "v" (num 7); VNull] [VNull]).
    vm_compute. reflexivity.
Defined.

(** C6: when the traversal reaches the marker [[n]] on a current value that
    is not an array, it stops without an exception and yields [undefined];
    the path contributes nothing, and alone it gives [undefined].  On
    [null] or [undefined] the traversal has stopped before the test of the
    marker and yields that value (C9); the path contributes nothing then
    as well. *)
Theorem wildcard_on_non_array_is_silent (inherited : host) (obj : value)
    (pre rest : list string) (accessor : string) (current : value) (results : list value) :
  traverseBasedOnPath inherited obj pre = Normal current →
  Array_isArray current = false →
  traverseBasedOnPath inherited obj (pre ++ wildcard :: rest)
  = Normal (if is_nullish current then current else VUndefined)
  ∧ path_iteration inherited obj results (pre ++ wildcard :: rest ++ [accessor]) = Normal results
  ∧ (∀ p, String_split slash p = pre ++ wildcard :: rest ++ [accessor] →
       getValuesFromObjectByPath inherited obj (PathString p) = Normal VUndefined).
Proof.
  intros Hcur Harr. apply traverse_Normal in Hcur.
  assert (traverse inherited obj (pre ++ wildcard :: rest)
          = if is_nullish current then current else VUndefined) as Hstop.
  { rewrite traverse_app, Hcur. cbn [traverse].
    destruct (is_nullish current); [done|].
    destruct (decide (wildcard = wildcard)); [|done]. by destruct current. }
  assert (path_result inherited obj (pre ++ wildcard :: rest ++ [accessor]) = None) as Hnone.
  { replace (pre ++ wildcard :: rest ++ [accessor])
      with ((pre ++ wildcard :: rest) ++ [accessor]) by by rewrite <- app_assoc.
    rewrite path_result_snoc, Hstop. by destruct current. }
  split; [|split].
  - by rewrite traverseBasedOnPath_traverse, Hstop.
  - by rewrite path_iteration_result, Hnone, app_nil_r.
  - intros p Hp. by rewrite single_path, Hp, Hnone.
Qed.

Lemma wildcard_on_non_array_is_silent_witness :
  traverseBasedOnPath bare (obj1 "a" (obj1 "b" (num 1))) (["a"] ++ wildcard :: ["b"])
  = Normal VUndefined
  ∧ path_iteration bare (obj1 "a" (obj1 "b" (num 1))) [num 3] (["a"] ++ wildcard :: ["b"] ++ ["c"])
    = Normal [num 3]
  ∧ (∀ p, String_split slash p = ["a"] ++ wildcard :: ["b"] ++ ["c"] →
       getValuesFromObjectByPath bare (obj1 "a" (obj1 "b" (num 1))) (PathString p)
       = Normal VUndefined).
Proof.
  apply (wildcard_on_non_array_is_silent bare (obj1 "a" (obj1 "b" (num 1)))
           ["a"] ["b"] "c"%string (obj1 "b" (num 1)) [num 3]).
  - vm_compute. reflexivity.
  - reflexivity.
Defined.

(** The marker met on [null]: the traversal yields [null], not [undefined]. *)
Lemma wildcard_on_null_yields_null :
  traverseBasedOnPath bare (obj1 "a" VNull) ["a"; wildcard] = Normal VNull
  ∧ traverseBasedOnPath bare (obj1 "a" VNull) ["a"; wildcard] ≠ Normal VUndefined.
Proof. split; [vm_compute; reflexivity | vm_compute; discriminate]. Qed.

(** C9: once the current value is [null] or [undefined] the traversal stops
    and returns that value, whatever segments remain; the accessor then
    reads [undefined] on it and the path contributes nothing. *)
Theorem nullish_stops_traversal (inherited : host) (obj : value)
    (pre rest : list string) (accessor : string) (current : value) (results : list value) :
  traverseBasedOnPath inherited obj pre = Normal current →
  is_nullish current = true →
  traverseBasedOnPath inherited obj (pre ++ rest) = Normal current
  ∧ opt_member inherited current accessor = Normal VUndefined
  ∧ path_iteration inherited obj results (pre ++ rest ++ [accessor]) = Normal results.
Proof.
  intros Hcur Hn. apply traverse_Normal in Hcur.
  assert (traverse inherited obj (pre ++ rest) = current) as Hstop.
  { by rewrite traverse_app, Hcur, traverse_nullish. }
  split; [|split].
  - by rewrite traverseBasedOnPath_traverse, Hstop.
  - by rewrite opt_member_read, opt_read_nullish.
  - rewrite path_iteration_result, app_assoc, path_result_snoc, Hstop.
    destruct current; try done. all: by rewrite app_nil_r.
Qed.

Lemma nullish_stops_traversal_witness :
  traverseBasedOnPath bare (obj1 "a" VNull) (["a"] ++ ["b"; "c"]) = Normal VNull
  ∧ opt_member bare VNull "d" = Normal VUndefined
  ∧ path_iteration bare (obj1 "a" VNull) [num 3] (["a"] ++ ["b"; "c"] ++ ["d"]) = Normal [num 3].
Proof.
  apply (nullish_stops_traversal bare (obj1 "a" VNull) ["a"] ["b"; "c"] "d"%string VNull [num 3]).
  - vm_compute. reflexivity.
  - reflexivity.
Defined.

(** C10: when the prefix ends at an array and the accessor is falsy on every
    element (absent from each, or the array is empty), the final value is
    the empty array; it is not [undefined], so it is appended, and the path
    alone gives [[]].  On an intermediate that is not an array a missing
    accessor gives [undefined]. *)
Theorem falsy_accessor_over_array_gives_empty_array (inherited : host) (obj : value)
    (p : string) (prefix : list string) (accessor : string) :
  String_split slash p = prefix ++ [accessor] →
  (∀ xs results,
     traverseBasedOnPath inherited obj prefix = Normal (VArray xs) →
     Forall (λ item, Boolean (opt_read inherited item accessor) = false) xs →
     path_iteration inherited obj results (String_split slash p) = Normal (results ++ [VArray []])
     ∧ getValuesFromObjectByPath inherited obj (PathString p) = Normal (VArray [])) ∧
  (∀ intermediate,
     traverseBasedOnPath inherited obj prefix = Normal intermediate →
     Array_isArray intermediate = false →
     opt_member inherited intermediate accessor = Normal VUndefined →
     getValuesFromObjectByPath inherited obj (PathString p) = Normal VUndefined).
Proof.
  intros Hp. split.
  - intros xs results Hv Hfalsy. apply traverse_Normal in Hv.
    assert (keep_truthy (map (λ x, opt_read inherited x accessor) xs) = []) as Hnil.
    { clear Hv. unfold keep_truthy. induction Hfalsy as [|x xs Hx _ IH]; [done|].
      cbn [map]. rewrite filter_cons_False; [done|]. by rewrite Hx. }
    rewrite single_path, path_iteration_result, Hp, path_result_snoc, Hv, Hnil. done.
  - intros v Hv Harr Hacc. apply traverse_Normal in Hv.
    rewrite opt_member_read in Hacc. injection Hacc as Hacc.
    rewrite single_path, Hp, path_result_snoc, Hv.
    destruct v; try done; cbn zeta; by rewrite Hacc.
Qed.

Lemma falsy_accessor_over_array_gives_empty_array_witness :
  getValuesFromObjectByPath bare (obj1 "items" (VArray [obj1 "v" (num 0); obj1 "w" (num 1)]))
    (PathString "items/v") = Normal (VArray [])
  ∧ getValuesFromObjectByPath bare (obj1 "items" (obj1 "w" (num 1)))
      (PathString "items/v") = Normal VUndefined.
Proof.
  split.
  - apply (proj1 (falsy_accessor_over_array_gives_empty_array bare
             (obj1 "items" (VArray [obj1 "v" (num 0); obj1 "w" (num 1)]))
             "items/v"%string ["items"] "v"%string ltac:(vm_compute; reflexivity))
             [obj1 "v" (num 0); obj1 "w" (num 1)] []).
    + vm_compute. reflexivity.
    + repeat constructor.
  - apply (proj2 (falsy_accessor_over_array_gives_empty_array bare
             (obj1 "items" (obj1 "w" (num 1)))
             "items/v"%string ["items"] "v"%string ltac:(vm_compute; reflexivity))
             (obj1 "w" (num 1))).
    + vm_compute. reflexivity.
    + reflexivity.
    + vm_compute. reflexivity.
Defined.

Lemma opt_read_chain_nullish (inherited : host) (v : value) (segments : list string) (accessor : string) :
  is_nullish v = true →
  opt_read inherited (chain inherited v segments) accessor = VUndefined.
Proof.
  intros Hn. destruct segments as [|k rest].
  - by apply opt_read_nullish.
  - unfold chain. cbn [foldl]. rewrite plain_read_nullish by done.
    fold (chain inherited VUndefined rest). by rewrite chain_undefined.
Qed.

(** A key missing under an array: the path gives [[]], not [undefined]. *)
Lemma missing_key_under_array_gives_empty_array :
  getValuesFromObjectByPath bare (obj1 "items" (VArray [obj1 "v" (num 1)])) (PathString "items/x")
  = Normal (VArray [])
  ∧ getValuesFromObjectByPath bare (obj1 "items" (VArray [obj1 "v" (num 1)])) (PathString "items/x")
    ≠ Normal VUndefined.
Proof. split; [vm_compute; reflexivity | vm_compute; discriminate]. Qed.

(** C7 on the code: the empty path string is not skipped.  [split] gives
    the one segment [""] for it, the test [pathKeys.length === 0] does not
    hold, and the empty key is looked up on the document: a document with a
    field [""] gives that field, an array document gives [[]]. *)
Theorem empty_path_is_looked_up :
  String_split slash "" = [""]
  ∧ getValuesFromObjectByPath bare (obj1 "" (num 1)) (PathString "") = Normal (num 1)
  ∧ getValuesFromObjectByPath bare (VArray []) (PathString "") = Normal (VArray [])
  ∧ getValuesFromObjectByPath bare (VArray [obj1 "" (num 1)]) (PathString "")
    = Normal (VArray [num 1]).
Proof. repeat split; vm_compute; reflexivity. Qed.

(** [split] never returns the empty array, so the test for a path without
    segments never holds. *)
Lemma String_split_nonempty (sep : ascii) (s : string) : String_split sep s ≠ [].
Proof.
  destruct s as [|c rest]; [done|]. cbn.
  destruct (decide (c = sep)); [done|]. by destruct (String_split sep rest).
Qed.

End TreeClaims.

(** * Properties of the heap embedding *)

Section StoreFacts.

Import Store.

Variable env : host.

Lemma frame_refl n h : frame n h h.
Proof. done. Qed.

Lemma frame_trans n h1 h2 h3 : frame n h1 h2 → frame n h2 h3 → frame n h1 h3.
Proof. intros [H1 H1'] [H2 H2']. split; [congruence|auto]. Qed.

Lemma frame_length n (h h' : heap) : n ≤ length h → frame n h h' → n ≤ length h'.
Proof.
  intros Hn [Heq _]. apply (f_equal length) in Heq. rewrite !length_take in Heq. lia.
Qed.

Lemma frame_alloc n h xs : n ≤ length h → frame n h (h ++ [Arr xs]).
Proof.
  intros Hn. split; [by apply take_app_le|].
  intros Hall. rewrite drop_app_le by done. apply Forall_app. split; [done|].
  by constructor.
Qed.

Lemma frame_store n h l xs : n ≤ l → frame n h (<[l := Arr xs]> h).
Proof.
  intros Hl. split; [by apply take_insert_ge|].
  intros Hall. rewrite drop_insert_ge by done. by apply Forall_insert.
Qed.

Lemma triple_conseq n {A} (P P' : heap → Prop) (m : M A) (Q Q' : A → heap → Prop) :
  (∀ h, P' h → P h) → (∀ a h, Q a h → Q' a h) →
  triple n P m Q → triple n P' m Q'.
Proof.
  intros HP HQ Hm h Hn HPh. destruct (Hm h Hn (HP _ HPh)) as [Hk Hq].
  split; [done|]. intros a Ha. by apply HQ, Hq.
Qed.

Lemma triple_ret n {A} (P : heap → Prop) (a : A) :
  triple n P (ret a) (λ a' h, a' = a ∧ P h).
Proof. intros h _ HP. split; [done|]. cbn. intros a' [= <-]. done. Qed.

Lemma triple_throw n {A} (P : heap → Prop) (Q : A → heap → Prop) e :
  triple n P (throw e) Q.
Proof. intros h _ _. split; [done|]. cbn. intros a [=]. Qed.

Lemma triple_bind n {A B} (P : heap → Prop) (m : M A) (Q : A → heap → Prop)
    (f : A → M B) (R : B → heap → Prop) :
  triple n P m Q → (∀ a, triple n (Q a) (f a) R) → triple n P (bind m f) R.
Proof.
  intros Hm Hf h Hn HP. destruct (Hm h Hn HP) as [Hk Hq].
  unfold bind. destruct (m h) as [[a|e] h1] eqn:Hrun; cbn [fst snd] in *.
  - assert (n ≤ length h1) as Hn1 by by eapply frame_length.
    destruct (Hf a h1 Hn1 (Hq a eq_refl)) as [Hk2 Hr].
    split; [by eapply frame_trans|done].
  - split; [done|]. intros b [=].
Qed.

(** The two shapes of [triple_bind] that the proofs below use: a step whose
    result is only known by a fact that does not depend on the heap. *)
Lemma triple_bind_pure n {A B} (P : heap → Prop) (m : M A) (Qa : A → Prop)
    (f : A → M B) (R : B → heap → Prop) :
  triple n P m (λ a _, Qa a) → (∀ a, Qa a → triple n anyheap (f a) R) →
  triple n P (bind m f) R.
Proof.
  intros Hm Hf. eapply triple_bind; [exact Hm|].
  intros a h Hn HQ. by apply Hf.
Qed.

Lemma safe_bind n {A B} (m : M A) (f : A → M B) (R : B → heap → Prop) :
  safe n m → (∀ a, triple n anyheap (f a) R) → triple n anyheap (bind m f) R.
Proof. intros Hm Hf. eapply triple_bind; [exact Hm|]. intros a. apply Hf. Qed.

Lemma triple_exists_pre n {A X} (P : X → heap → Prop) (m : M A) (Q : A → heap → Prop) :
  (∀ x, triple n (P x) m Q) → triple n (λ h, ∃ x, P x h) m Q.
Proof. intros Hm h Hn [x HP]. by apply (Hm x). Qed.

(** A fact that the precondition gives on every heap may be used outright. *)
Lemma triple_pre_fact n {A} (φ : Prop) (P : heap → Prop) (m : M A) (Q : A → heap → Prop) :
  (∀ h, P h → φ) → (φ → triple n P m Q) → triple n P m Q.
Proof. intros Hφ Hm h Hn HP. apply Hm; [by eapply Hφ|done|done]. Qed.

Lemma triple_safe n {A} (P : heap → Prop) (m : M A) (Q : A → heap → Prop) :
  triple n P m Q → triple n P m (λ _ _, True).
Proof. by apply triple_conseq. Qed.

Lemma safe_ret n {A} (a : A) : safe n (ret a).
Proof. eapply triple_safe, triple_ret. Qed.

(** The primitive accesses. *)
Lemma triple_elements n (P : heap → Prop) arr :
  triple n P (elements arr) (λ xs h, P h ∧ array_at h arr = Some xs).
Proof.
  intros h _ HP. unfold elements.
  destruct (array_at h arr) as [xs|] eqn:Harr; cbn; (split; [done|]); [|by intros a [=]].
  by intros a [= <-].
Qed.

Lemma safe_elements n arr : safe n (elements arr).
Proof. eapply triple_safe, triple_elements. Qed.

Lemma array_at_app h c v xs : array_at h v = Some xs → array_at (h ++ [c]) v = Some xs.
Proof.
  unfold array_at. destruct v as [| | | | |l|]; try done.
  destruct (h !! l) as [c'|] eqn:Hl; [|done].
  by rewrite lookup_app_l, Hl by by eapply lookup_lt_Some.
Qed.

Lemma array_at_alloc h c : array_at (h ++ [Arr c]) (VRef (length h)) = Some c.
Proof. unfold array_at. by rewrite list_lookup_middle. Qed.

(** A new cell: the reference is fresh, the cell holds what was put in
    it, and the arrays of the heap before are still there. *)
Lemma triple_alloc n (arr : value) (xs ys : list value) :
  triple n (λ h, array_at h arr = Some xs) (alloc (Arr ys))
    (λ v h, fresh n v ∧ array_at h arr = Some xs ∧ array_at h v = Some ys).
Proof.
  intros h Hn HP. unfold alloc. cbn [fst snd]. split.
  - by apply frame_alloc.
  - intros a [= <-]. split; [done|]. split; [by apply array_at_app|].
    apply array_at_alloc.
Qed.

Lemma triple_alloc_any n (ys : list value) :
  triple n anyheap (alloc (Arr ys)) (λ v h, fresh n v ∧ array_at h v = Some ys).
Proof.
  intros h Hn _. unfold alloc. cbn [fst snd]. split.
  - by apply frame_alloc.
  - intros a [= <-]. split; [done|]. apply array_at_alloc.
Qed.

Lemma makes_fresh_alloc n xs : makes_fresh n (alloc (Arr xs)).
Proof.
  intros h Hn _. unfold alloc. cbn [fst snd]. split.
  - by apply frame_alloc.
  - by intros a [= <-].
Qed.

Lemma safe_store n l xs : n ≤ l → safe n (store l (Arr xs)).
Proof. intros Hl h _ _. unfold store. cbn [fst snd]. split; [by apply frame_store|done]. Qed.

Lemma makes_fresh_safe n (m : M value) : makes_fresh n m → safe n m.
Proof. apply triple_safe. Qed.

(** The reads. *)
Lemma safe_member n v key : safe n (member env v key).
Proof. intros h _ _. unfold member. by destruct (is_nullish v). Qed.

Lemma safe_opt_member n v key : safe n (opt_member env v key).
Proof. unfold opt_member. destruct (is_nullish v); [apply safe_ret|apply safe_member]. Qed.

Lemma safe_Array_isArray n v : safe n (Array_isArray v).
Proof. by intros h _ _. Qed.

Lemma safe_Array_length n arr : safe n (Array_length arr).
Proof. eapply safe_bind; [apply safe_elements|]. intros xs. apply safe_ret. Qed.

Lemma safe_Array_at n arr i : safe n (Array_at arr i).
Proof. eapply safe_bind; [apply safe_elements|]. intros xs. apply safe_ret. Qed.

(** The array methods that build a new array. *)
Lemma safe_mapM_heap n (f : value → M value) xs :
  (∀ x, safe n (f x)) → safe n (mapM_heap f xs).
Proof.
  intros Hf. induction xs as [|x xs IH]; [apply safe_ret|].
  cbn [mapM_heap]. eapply safe_bind; [apply Hf|]. intros y.
  eapply safe_bind; [apply IH|]. intros ys. apply safe_ret.
Qed.

Lemma makes_fresh_Array_map n f arr :
  (∀ x, safe n (f x)) → makes_fresh n (Array_map f arr).
Proof.
  intros Hf. eapply safe_bind; [apply safe_elements|]. intros xs.
  eapply safe_bind; [by apply safe_mapM_heap|]. intros ys.
  apply makes_fresh_alloc.
Qed.

Lemma makes_fresh_Array_filter n p arr : makes_fresh n (Array_filter p arr).
Proof.
  eapply safe_bind; [apply safe_elements|]. intros xs. apply makes_fresh_alloc.
Qed.

Lemma makes_fresh_Array_flat n arr : makes_fresh n (Array_flat arr).
Proof.
  eapply safe_bind; [apply safe_elements|]. intros xs.
  intros h Hn _. apply (makes_fresh_alloc n _ h Hn I).
Qed.

(** The two methods that update an array: safe on a fresh one. *)
Lemma safe_Array_pop n arr : fresh n arr → safe n (Array_pop arr).
Proof.
  intros Hfresh. eapply safe_bind; [apply safe_elements|]. intros xs.
  destruct arr; try apply triple_throw.
  eapply safe_bind; [by apply safe_store|]. intros _. apply safe_ret.
Qed.

Lemma safe_Array_push n arr v : fresh n arr → safe n (Array_push arr v).
Proof.
  intros Hfresh. eapply safe_bind; [apply safe_elements|]. intros xs.
  destruct arr; try apply triple_throw. by apply safe_store.
Qed.

(** The traversal only reads and builds new arrays. *)
Lemma safe_traverse_loop n current keys : safe n (traverse_loop env current keys).
Proof.
  revert current. induction keys as [|key rest IH]; intros current; [apply safe_ret|].
  cbn [traverse_loop].
  destruct (is_nullish current); [apply safe_ret|].
  destruct (is_wildcard key).
  - eapply safe_bind; [apply safe_Array_isArray|]. intros isArr.
    destruct isArr; cbn [negb]; [|apply safe_ret].
    eapply safe_bind; [apply makes_fresh_safe, makes_fresh_Array_map; intros x; apply safe_ret|].
    intros mapped.
    eapply safe_bind; [apply makes_fresh_safe, makes_fresh_Array_filter|]. intros kept.
    eapply safe_bind; [apply makes_fresh_safe, makes_fresh_Array_flat|]. intros current'.
    apply IH.
  - eapply safe_bind; [apply safe_Array_isArray|]. intros isArr.
    destruct isArr.
    + eapply safe_bind;
        [apply makes_fresh_safe, makes_fresh_Array_map; intros x; apply safe_opt_member|].
      intros mapped.
      eapply safe_bind; [apply makes_fresh_safe, makes_fresh_Array_filter|]. intros kept.
      eapply safe_bind; [apply makes_fresh_safe, makes_fresh_Array_flat|]. intros current'.
      apply IH.
    + eapply safe_bind; [apply safe_opt_member|]. intros current'. apply IH.
Qed.

Lemma safe_traverseBasedOnPath n obj pathKeys : safe n (traverseBasedOnPath env obj pathKeys).
Proof.
  eapply safe_bind; [apply safe_elements|]. intros keys. apply safe_traverse_loop.
Qed.

(** One iteration pops from [pathKeys] and pushes to [results]: safe when
    both are fresh. *)
Lemma safe_path_iteration n obj results pathKeys :
  fresh n results → fresh n pathKeys → safe n (path_iteration env obj results pathKeys).
Proof.
  intros Hres Hkeys. unfold path_iteration.
  eapply safe_bind; [apply safe_Array_length|]. intros len.
  destruct (len =? 0); [apply safe_ret|].
  eapply safe_bind; [by apply safe_Array_pop|]. intros accessor.
  eapply safe_bind; [apply safe_traverseBasedOnPath|]. intros valueAtPath.
  destruct (negb (is_undefined valueAtPath)); [|apply safe_ret].
  eapply safe_bind; [apply safe_Array_isArray|]. intros isArr.
  eapply safe_bind.
  { destruct isArr.
    - eapply safe_bind;
        [apply makes_fresh_safe, makes_fresh_Array_map; intros x; apply safe_opt_member|].
      intros mapped. apply makes_fresh_safe, makes_fresh_Array_filter.
    - apply safe_opt_member. }
  intros finalValue.
  destruct (negb (is_undefined finalValue)); [by apply safe_Array_push|apply safe_ret].
Qed.

Lemma safe_for_allPaths n obj results allPaths :
  fresh n results → Forall (fresh n) allPaths →
  safe n (for_allPaths env obj results allPaths).
Proof.
  intros Hres Hall. induction Hall as [|pathKeys rest Hkeys _ IH]; [apply safe_ret|].
  cbn [for_allPaths]. eapply safe_bind; [by apply safe_path_iteration|].
  intros _. apply IH.
Qed.

(** [split] builds a new array; so every element of [allPaths] is fresh,
    and it is not the caller's array of paths that [pop] shortens. *)
Lemma makes_fresh_String_split_call n s : makes_fresh n (String_split_call s).
Proof. destruct s; try apply triple_throw. apply makes_fresh_alloc. Qed.

Lemma mapM_heap_fresh n (f : value → M value) xs :
  (∀ x, makes_fresh n (f x)) →
  triple n anyheap (mapM_heap f xs) (λ ys _, Forall (fresh n) ys).
Proof.
  intros Hf. induction xs as [|x xs IH].
  - eapply triple_conseq; [| |apply triple_ret]; [done|]. by intros ys h [-> _].
  - cbn [mapM_heap]. eapply triple_bind_pure; [apply Hf|]. intros y Hy.
    eapply triple_bind_pure; [apply IH|]. intros ys Hys.
    eapply triple_conseq; [| |apply triple_ret]; [done|].
    intros zs h [-> _]. by constructor.
Qed.

Lemma allPaths_fresh n paths (isArr : bool) :
  triple n anyheap
    (if isArr then Array_map String_split_call paths
     else bind (String_split_call paths) (λ pathKeys, alloc (Arr [pathKeys])))
    (holds_fresh n).
Proof.
  destruct isArr.
  - eapply safe_bind; [apply safe_elements|]. intros xs.
    eapply triple_bind_pure; [apply mapM_heap_fresh, makes_fresh_String_split_call|].
    intros ys Hys.
    eapply triple_conseq; [| |apply triple_alloc_any]; [done|].
    intros v h [_ Hv]. by exists ys.
  - eapply triple_bind_pure; [apply makes_fresh_String_split_call|]. intros pathKeys Hk.
    eapply triple_conseq; [| |apply triple_alloc_any]; [done|].
    intros v h [_ Hv]. exists [pathKeys]. split; [done|]. by constructor.
Qed.

Lemma safe_getValuesFromObjectByPath n obj paths :
  safe n (getValuesFromObjectByPath env obj paths).
Proof.
  unfold getValuesFromObjectByPath.
  eapply safe_bind; [apply safe_Array_isArray|]. intros isArr.
  eapply triple_bind; [apply allPaths_fresh|]. intros allPaths.
  apply triple_exists_pre. intros ys.
  apply (triple_pre_fact _ (Forall (fresh n) ys)); [by intros h [_ ?]|]. intros Hfresh.
  eapply (triple_conseq _ (λ h, array_at h allPaths = Some ys) _ _ (λ _ _, True));
    [by intros h [? _] | done |].
  eapply triple_bind; [apply triple_alloc|]. intros results.
  apply (triple_pre_fact _ (fresh n results)); [by intros h [? _]|]. intros Hres.
  eapply triple_bind; [apply triple_elements|]. intros pathKeysList.
  apply (triple_pre_fact _ (pathKeysList = ys)).
  { intros h [[_ [H1 _]] H2]. congruence. }
  intros ->.
  eapply (triple_conseq _ anyheap _ _ (λ _ _, True)); [done|done|].
  eapply safe_bind; [by apply safe_for_allPaths|]. intros _.
  eapply safe_bind; [apply safe_Array_length|]. intros len.
  destruct (1 <? len); [apply safe_ret|apply safe_Array_at].
Qed.

End StoreFacts.

(** ** The claim on the heap embedding *)

Section StoreClaims.

Import Store.

Lemma safe_extends (n : nat) {A} (m : M A) (h : heap) :
  n = length h → safe n m →
  ∃ new, (m h).2 = h ++ new ∧ Forall is_array new.
Proof.
  intros -> Hsafe. destruct (Hsafe h (le_n _) I) as [[Htake Harr] _].
  exists (drop (length h) (m h).2). split.
  - rewrite <- (take_drop (length h) (m h).2) at 1. by rewrite Htake, take_ge.
  - apply Harr. by rewrite drop_all.
Qed.

(** C8: [getValuesFromObjectByPath] and [traverseBasedOnPath] leave every
    object and array of the caller as it is, the document and the array of
    paths among them: whatever the arguments, and whether the call returns
    or throws, the heap after the call is the heap before it followed by
    new cells, and the new cells are arrays. *)
Theorem extract_leaves_the_callers_heap (env : host) (h : heap) (obj paths : value) :
  (∃ new, (getValuesFromObjectByPath env obj paths h).2 = h ++ new ∧ Forall is_array new) ∧
  (∀ pathKeys,
     ∃ new, (traverseBasedOnPath env obj pathKeys h).2 = h ++ new ∧ Forall is_array new).
Proof.
  split.
  - apply (safe_extends (length h)); [done|]. apply safe_getValuesFromObjectByPath.
  - intros pathKeys. apply (safe_extends (length h)); [done|].
    apply safe_traverseBasedOnPath.
Qed.

(** The cells of the caller read the same after the call. *)
Corollary extract_keeps_every_cell (env : host) (h : heap) (obj paths : value) (l : loc) (c : cell) :
  h !! l = Some c → (getValuesFromObjectByPath env obj paths h).2 !! l = Some c.
Proof.
  intros Hl.
  destruct (safe_extends (length h) (getValuesFromObjectByPath env obj paths) h eq_refl
              (safe_getValuesFromObjectByPath env _ obj paths)) as [new [-> _]].
  rewrite lookup_app_l; [done|]. by eapply lookup_lt_Some.
Qed.

(** A run on [items_heap]: the call returns a new array holding [1] and
    [2]; the six cells of the caller are as before. *)
Example extract_run_on_items :
  let '(result, h') := getValuesFromObjectByPath bare (VRef 4) (VRef 5) items_heap in
  result = Normal (VRef 11)
  ∧ h' !! 11 = Some (Arr [num 1; num 2])
  ∧ take 6 h' = items_heap.
Proof. vm_compute. done. Qed.

(** An empty array found in the document is returned itself, as the
    reference the document holds; the empty array of a distribution that
    keeps nothing is a new one. *)
Example extract_returns_the_array_of_the_document :
  (getValuesFromObjectByPath bare (VRef 1) (VString "a") empties_heap).1 = Normal (VRef 0).
Proof. vm_compute. reflexivity. Qed.

Example extract_returns_a_new_empty_array :
  let '(result, h') := getValuesFromObjectByPath bare (VRef 4) (VString "items/v") empties_heap in
  result = Normal (VRef 9) ∧ h' !! 9 = Some (Arr []) ∧ take 5 h' = empties_heap.
Proof. vm_compute. done. Qed.

End StoreClaims.

(** * The heap embedding against the tree embedding *)

Section Refinement.

Import Store.

Variable env : Store.host.
Variable inh : Tree.host.
Hypothesis Hhost : hosts_agree env inh.

Lemma denotes_mono (ok ok' : nat → Prop) (h h' : list Store.cell) :
  (∀ l c, ok l → h !! l = Some c → ok' l ∧ h' !! l = Some c) →
  ∀ v t, denotes ok h v t → denotes ok' h' v t.
Proof.
  intros Hcells. fix IH 3. intros v t H.
  destruct H as [| | | | | |l xs ts Hok Hl Hxs|l fs tfs Hok Hl Hfs].
  1-6: constructor.
  - destruct (Hcells _ _ Hok Hl) as [Hok' Hl'].
    apply (denotes_array _ _ l xs ts Hok' Hl').
    clear Hl Hl' Hok Hok'. revert xs ts Hxs. fix IHl 3.
    intros xs ts Hxs. destruct Hxs as [|x t xs ts Hx Hxs].
    + constructor.
    + constructor; [apply IH, Hx | apply IHl, Hxs].
  - destruct (Hcells _ _ Hok Hl) as [Hok' Hl'].
    apply (denotes_object _ _ l fs tfs Hok' Hl').
    intros k. destruct (Hfs k) as [x y Hxy|]; constructor. apply IH, Hxy.
Qed.


Lemma grows_refl ok h : grows ok h h.
Proof. done. Qed.

Lemma grows_trans ok h1 h2 h3 : grows ok h1 h2 → grows ok h2 h3 → grows ok h1 h3.
Proof. intros [H1 L1] [H2 L2]. split; [naive_solver|lia]. Qed.

Lemma grows_app ok h new : grows ok h (h ++ new).
Proof.
  split.
  - intros l c _ Hl. rewrite lookup_app_l; [done|]. by eapply lookup_lt_Some.
  - rewrite length_app. lia.
Qed.

Lemma grows_store ok h l c : ¬ ok l → grows ok h (<[l := c]> h).
Proof.
  intros Hl. split.
  - intros l' c' Hok Hl'. rewrite list_lookup_insert_ne; [done|]. by intros ->.
  - by rewrite length_insert.
Qed.

Lemma denotes_grows ok h h' v t : grows ok h h' → denotes ok h v t → denotes ok h' v t.
Proof. intros [Hcells _]. apply denotes_mono. naive_solver. Qed.

Lemma Forall2_denotes_grows ok h h' xs ts :
  grows ok h h' → Forall2 (denotes ok h) xs ts → Forall2 (denotes ok h') xs ts.
Proof. intros Hg H. eapply Forall2_impl; [exact H|]. intros x t. by apply denotes_grows. Qed.

Lemma denotes_Boolean ok h v t : denotes ok h v t → Boolean v = Tree.Boolean t.
Proof. by destruct 1. Qed.

Lemma denotes_is_nullish ok h v t : denotes ok h v t → is_nullish v = Tree.is_nullish t.
Proof. by destruct 1. Qed.

Lemma denotes_is_undefined ok h v t : denotes ok h v t → is_undefined v = Tree.is_undefined t.
Proof. by destruct 1. Qed.

Lemma denotes_array_at ok h v t :
  denotes ok h v t →
  match t with
  | Tree.VArray ts => ∃ xs, array_at h v = Some xs ∧ Forall2 (denotes ok h) xs ts
  | _ => array_at h v = None
  end.
Proof.
  destruct 1 as [| | | | | |l xs ts Hok Hl Hxs|l fs tfs Hok Hl Hfs]; try done.
  - exists xs. unfold array_at. by rewrite Hl.
  - unfold array_at. by rewrite Hl.
Qed.

Lemma denotes_isArray ok h v t :
  denotes ok h v t → bool_decide (is_Some (array_at h v)) = Tree.Array_isArray t.
Proof.
  intros H. apply denotes_array_at in H. destruct t; cbn; try (by rewrite H).
  destruct H as [ys [-> _]]. by apply bool_decide_eq_true_2.
Qed.

Lemma nth_index_Forall2 {A B} (R : A → B → Prop) xs ys i :
  Forall2 R xs ys → option_Forall2 R (nth_index xs i) (nth_index ys i).
Proof.
  intros H. unfold nth_index. rewrite (Forall2_length _ _ _ H).
  destruct (_ <? _)%N; [|constructor].
  destruct (xs !! N.to_nat i) as [x|] eqn:Hx.
  - destruct (Forall2_lookup_l _ _ _ _ _ H Hx) as [y [-> Hxy]]. by constructor.
  - apply lookup_ge_None in Hx. rewrite (Forall2_length _ _ _ H) in Hx.
    apply lookup_ge_None in Hx. rewrite Hx. constructor.
Qed.

Lemma denotes_own_property ok h v t k :
  denotes ok h v t →
  option_Forall2 (denotes ok h) (own_property h v k) (Tree.own_property t k).
Proof.
  destruct 1 as [| | | |s| |l xs ts Hok Hl Hxs|l fs tfs Hok Hl Hfs]; cbn; try constructor.
  - destruct (decide (k = "length")); [constructor; constructor|].
    destruct (index_of_key k) as [i|]; cbn; [|constructor].
    destruct (nth_index (chars s) i); cbn; constructor. constructor.
  - rewrite Hl. destruct (decide (k = "length")).
    { rewrite (Forall2_length _ _ _ Hxs). constructor. constructor. }
    destruct (index_of_key k) as [i|]; cbn; [|constructor].
    by apply nth_index_Forall2.
  - rewrite Hl. apply Hfs.
Qed.

Lemma get_completes h v k : get env h v k = Normal (value_of (get env h v k)).
Proof.
  unfold get. destruct (own_property h v k); [done|].
  by destruct (proj1 Hhost h v k) as [w ->].
Qed.

Lemma denotes_get ok h v t k :
  denotes ok h v t → denotes ok h (value_of (get env h v k)) (Tree.get inh t k).
Proof.
  intros H. unfold get, Tree.get.
  destruct (denotes_own_property ok h v t k H); cbn; [done|].
  destruct (proj1 Hhost h v k) as [w Hw]. rewrite Hw. cbn.
  by apply (proj2 Hhost ok h v t k w).
Qed.

Lemma denotes_opt_read ok h v t k :
  denotes ok h v t → denotes ok h (opt_read env h v k) (Tree.opt_read inh t k).
Proof.
  intros H. unfold opt_read, Tree.opt_read. rewrite (denotes_is_nullish _ _ _ _ H).
  destruct (Tree.is_nullish t); [constructor|]. by apply denotes_get.
Qed.

Lemma opt_member_run h v k :
  opt_member env v (VString k) h = (Normal (opt_read env h v k), h).
Proof.
  unfold opt_member, member, opt_read. destruct (is_nullish v); [done|].
  cbn [to_property_key]. by rewrite get_completes.
Qed.

Lemma mapM_heap_pure (f : value → M value) (g : value → value) xs h :
  (∀ x, f x h = (Normal (g x), h)) → mapM_heap f xs h = (Normal (map g xs), h).
Proof.
  intros Hf. induction xs as [|x xs IH]; [done|].
  cbn [mapM_heap map]. unfold bind at 1. rewrite Hf. unfold bind at 1. by rewrite IH.
Qed.

Lemma elements_run h arr xs : array_at h arr = Some xs → elements arr h = (Normal xs, h).
Proof. intros H. unfold elements. by rewrite H. Qed.

Lemma Array_map_run f g arr xs h :
  array_at h arr = Some xs → (∀ x, f x h = (Normal (g x), h)) →
  Array_map f arr h = (Normal (VRef (length h)), h ++ [Arr (map g xs)]).
Proof.
  intros Harr Hf. unfold Array_map, bind.
  by rewrite (elements_run _ _ _ Harr), (mapM_heap_pure _ _ _ _ Hf).
Qed.

Lemma Array_filter_run p arr xs h :
  array_at h arr = Some xs →
  Array_filter p arr h = (Normal (VRef (length h)), h ++ [Arr (filter (λ x, p x = true) xs)]).
Proof. intros Harr. unfold Array_filter, bind. by rewrite (elements_run _ _ _ Harr). Qed.

Lemma Array_flat_run arr xs h :
  array_at h arr = Some xs →
  Array_flat arr h = (Normal (VRef (length h)), h ++ [Arr (concat (map (flat_item h) xs))]).
Proof. intros Harr. unfold Array_flat, bind. by rewrite (elements_run _ _ _ Harr). Qed.

Lemma denotes_filter ok h xs ts :
  Forall2 (denotes ok h) xs ts →
  Forall2 (denotes ok h) (filter (λ x, Boolean x = true) xs) (Tree.keep_truthy ts).
Proof.
  intros H. unfold Tree.keep_truthy. induction H as [|x t xs ts Hx _ IH]; [constructor|].
  rewrite !filter_cons. rewrite (denotes_Boolean _ _ _ _ Hx).
  destruct (decide (Tree.Boolean t = true)); [by constructor|done].
Qed.

Lemma denotes_flat ok h xs ts :
  Forall2 (denotes ok h) xs ts →
  Forall2 (denotes ok h) (concat (map (flat_item h) xs)) (Tree.flatten ts).
Proof.
  intros H. unfold Tree.flatten. induction H as [|x t xs ts Hx _ IH]; [constructor|].
  cbn [map concat]. apply Forall2_app; [|done].
  unfold flat_item. pose proof (denotes_array_at _ _ _ _ Hx) as Hat.
  destruct t; cbn [Tree.flat_item]; try (rewrite Hat; by constructor).
  destruct Hat as [ys [-> Hys]]. done.
Qed.

Lemma denotes_new_array ok h xs ts :
  ok (length h) → Forall2 (denotes ok h) xs ts →
  denotes ok (h ++ [Arr xs]) (VRef (length h)) (Tree.VArray ts).
Proof.
  intros Hok H. apply (denotes_array _ _ _ xs); [done|by rewrite list_lookup_middle|].
  eapply Forall2_denotes_grows; [apply grows_app|done].
Qed.

Lemma array_at_new h xs : array_at (h ++ [Arr xs]) (VRef (length h)) = Some xs.
Proof. unfold array_at. by rewrite list_lookup_middle. Qed.

(** Map, filter, flat: three new arrays, the last one is the result. *)
Lemma distribute_refines ok (f : value → M value) (g : value → value)
    (tg : Tree.value → Tree.value) cur xs ts h :
  (∀ l, length h ≤ l → ok l) →
  array_at h cur = Some xs →
  Forall2 (denotes ok h) xs ts →
  (∀ x, f x h = (Normal (g x), h)) →
  (∀ x t, denotes ok h x t → denotes ok h (g x) (tg t)) →
  ∃ v new,
    bind (Array_map f cur) (λ mapped,
      bind (Array_filter Boolean mapped) (λ kept, Array_flat kept)) h
    = (Normal v, h ++ new)
    ∧ denotes ok (h ++ new) v
        (Tree.VArray (Tree.flatten (Tree.keep_truthy (map tg ts)))).
Proof.
  intros Hok Harr Hxs Hf Hg.
  set (mapped := map g xs).
  set (kept := filter (λ x, Boolean x = true) mapped).
  set (h1 := h ++ [Arr mapped]). set (h2 := h1 ++ [Arr kept]).
  set (flat := concat (map (flat_item h2) kept)).
  exists (VRef (length h2)), ([Arr mapped; Arr kept; Arr flat]). split.
  - unfold bind at 1. rewrite (Array_map_run f g cur xs h Harr Hf).
    unfold bind at 1. fold mapped. fold h1.
    rewrite (Array_filter_run Boolean _ mapped h1) by apply array_at_new.
    fold kept. fold h2.
    rewrite (Array_flat_run _ kept h2) by apply array_at_new.
    fold flat. unfold h2, h1. by rewrite <- !app_assoc.
  - assert (Forall2 (denotes ok h) mapped (map tg ts)) as Hmapped.
    { unfold mapped. clear -Hxs Hg. induction Hxs; constructor; auto. }
    assert (grows ok h h2) as Hgrow.
    { unfold h2, h1. rewrite <- app_assoc. apply grows_app. }
    assert (Forall2 (denotes ok h2) kept (Tree.keep_truthy (map tg ts))) as Hkept.
    { eapply Forall2_denotes_grows; [exact Hgrow|]. by apply denotes_filter. }
    replace (h ++ [Arr mapped; Arr kept; Arr flat]) with (h2 ++ [Arr flat])
      by (unfold h2, h1; by rewrite <- !app_assoc).
    apply denotes_new_array.
    + apply Hok. destruct Hgrow as [_ Hlen]. exact Hlen.
    + by apply denotes_flat.
Qed.

Lemma is_wildcard_string k : is_wildcard (VString k) = bool_decide (k = wildcard).
Proof. done. Qed.

Lemma traverse_loop_refines ok keys :
  ∀ cur t h,
    (∀ l, length h ≤ l → ok l) →
    denotes ok h cur t →
    ∃ v new,
      traverse_loop env cur (VString <$> keys) h = (Normal v, h ++ new)
      ∧ denotes ok (h ++ new) v (Tree.traverse inh t keys).
Proof.
  induction keys as [|key rest IH]; intros cur t h Hok Hcur.
  { exists cur, []. rewrite app_nil_r. done. }
  cbn [fmap list_fmap traverse_loop Tree.traverse].
  rewrite (denotes_is_nullish _ _ _ _ Hcur).
  destruct (Tree.is_nullish t) eqn:Hn.
  { exists cur, []. rewrite app_nil_r. done. }
  rewrite is_wildcard_string.
  pose proof (denotes_isArray _ _ _ _ Hcur) as HisArr.
  pose proof (denotes_array_at _ _ _ _ Hcur) as Hat.
  destruct (decide (key = wildcard)) as [->|Hkey].
  - rewrite bool_decide_eq_true_2 by done.
    unfold bind at 1. unfold Array_isArray at 1. rewrite HisArr.
    destruct t; cbn [Tree.Array_isArray negb];
      try (exists VUndefined, []; rewrite app_nil_r; split; [done|constructor]).
    destruct Hat as [ys [Hys Hxs]].
    destruct (distribute_refines ok (λ item, ret item) id id cur ys xs h Hok Hys Hxs)
      as [v [new [Hrun Hv]]]; [done|done|].
    rewrite map_id in Hv.
    assert (∀ l, length (h ++ new) ≤ l → ok l) as Hok'.
    { intros l Hl. apply Hok. rewrite length_app in Hl. lia. }
    destruct (IH v _ (h ++ new) Hok' Hv) as [v' [new' [Hrun' Hv']]].
    exists v', (new ++ new'). rewrite app_assoc. split; [|done].
    rewrite <- Hrun'. clear Hrun'.
    change (bind (Array_map (λ item, ret item) cur)
              (λ mapped, bind (Array_filter Boolean mapped)
                 (λ kept, bind (Array_flat kept)
                    (λ current, traverse_loop env current (VString <$> rest)))) h
            = traverse_loop env v (VString <$> rest) (h ++ new)).
    revert Hrun. unfold bind.
    destruct (Array_map _ cur h) as [[mapped|e] h1]; [|done].
    destruct (Array_filter Boolean mapped h1) as [[kept|e] h2]; [|done].
    destruct (Array_flat kept h2) as [[cur'|e] h3]; [|done].
    by intros [= -> ->].
  - rewrite bool_decide_eq_false_2 by done.
    unfold bind at 1. unfold Array_isArray at 1. rewrite HisArr.
    destruct t; cbn [Tree.Array_isArray] in *; try done.
    1-3,5-6:
      unfold bind at 1; rewrite opt_member_run;
      apply IH; [done|by apply denotes_opt_read].
    destruct Hat as [ys [Hys Hxs]].
    destruct (distribute_refines ok (λ item, opt_member env item (VString key))
                (λ x, opt_read env h x key) (λ t, Tree.opt_read inh t key)
                cur ys xs h Hok Hys Hxs)
      as [v [new [Hrun Hv]]].
    { intros x. apply opt_member_run. }
    { intros x t. by apply denotes_opt_read. }
    assert (∀ l, length (h ++ new) ≤ l → ok l) as Hok'.
    { intros l Hl. apply Hok. rewrite length_app in Hl. lia. }
    destruct (IH v _ (h ++ new) Hok' Hv) as [v' [new' [Hrun' Hv']]].
    exists v', (new ++ new'). rewrite app_assoc. split; [|done].
    rewrite <- Hrun'. clear Hrun'.
    revert Hrun. unfold bind.
    destruct (Array_map _ cur h) as [[mapped|e] h1]; [|done].
    destruct (Array_filter Boolean mapped h1) as [[kept|e] h2]; [|done].
    destruct (Array_flat kept h2) as [[cur'|e] h3]; [|done].
    by intros [= -> ->].
Qed.

Lemma path_result_final obj prefix accessor :
  Tree.path_result inh obj (prefix ++ [accessor])
  = let tv := Tree.traverse inh obj prefix in
    if Tree.is_undefined tv then None
    else if Tree.is_undefined (Tree.final_value inh tv accessor) then None
         else Some (Tree.final_value inh tv accessor).
Proof. rewrite path_result_snoc. by destruct (Tree.traverse inh obj prefix). Qed.

Lemma Array_push_run h r rs v :
  h !! r = Some (Arr rs) →
  Array_push (VRef r) v h = (Normal tt, <[r := Arr (rs ++ [v])]> h).
Proof.
  intros Hr. unfold Array_push, bind, elements, array_at. by rewrite Hr.
Qed.

Lemma Array_pop_run h pk xs x :
  h !! pk = Some (Arr (xs ++ [x])) →
  Array_pop (VRef pk) h = (Normal x, <[pk := Arr xs]> h).
Proof.
  intros Hpk. unfold Array_pop, bind, elements, array_at. rewrite Hpk.
  cbn. by rewrite removelast_last, last_snoc.
Qed.

Lemma Array_length_run h arr xs :
  array_at h arr = Some xs → Array_length arr h = (Normal (length xs), h).
Proof. intros H. unfold Array_length, bind. by rewrite (elements_run _ _ _ H). Qed.

(** The final value of a path whose intermediate value is not undefined. *)
Lemma final_value_refines ok v tv accessor h :
  (∀ l, length h ≤ l → ok l) →
  denotes ok h v tv →
  ∃ fv new,
    (∀ B (K : value → M B),
       bind (Array_isArray v) (λ isArr,
         bind (if isArr : bool then
                 bind (Array_map (λ item, opt_member env item (VString accessor)) v)
                   (λ mapped, Array_filter Boolean mapped)
               else opt_member env v (VString accessor)) K) h
       = K fv (h ++ new))
    ∧ denotes ok (h ++ new) fv (Tree.final_value inh tv accessor).
Proof.
  intros Hok Hv.
  pose proof (denotes_isArray _ _ _ _ Hv) as HisArr.
  pose proof (denotes_array_at _ _ _ _ Hv) as Hat.
  destruct tv; cbn [Tree.Array_isArray Tree.final_value] in *.
  1-5,7-8:
    eexists _, []; rewrite app_nil_r; split; [|by apply denotes_opt_read];
    intros B K; unfold bind at 1; unfold Array_isArray at 1; rewrite HisArr;
    unfold bind at 1; by rewrite opt_member_run.
  destruct Hat as [ys [Hys Hxs]].
  set (mapped := map (λ x, opt_read env h x accessor) ys).
  set (kept := filter (λ x, Boolean x = true) mapped).
  exists (VRef (S (length h))), [Arr mapped; Arr kept]. split.
  - intros B K. unfold bind at 1. unfold Array_isArray at 1. rewrite HisArr.
    unfold bind.
    rewrite (Array_map_run _ (λ x, opt_read env h x accessor) v ys h Hys)
      by (intros x; apply opt_member_run).
    fold mapped. rewrite (Array_filter_run Boolean _ mapped) by apply array_at_new.
    rewrite length_app. cbn. rewrite Nat.add_1_r. by rewrite <- app_assoc.
  - replace (h ++ [Arr mapped; Arr kept]) with ((h ++ [Arr mapped]) ++ [Arr kept])
      by by rewrite <- app_assoc.
    replace (S (length h)) with (length (h ++ [Arr mapped]))
      by (rewrite length_app; cbn; lia).
    apply denotes_new_array.
    + apply Hok. rewrite length_app. lia.
    + eapply Forall2_denotes_grows; [apply grows_app|].
      apply denotes_filter. unfold mapped. clear -Hxs Hhost.
      induction Hxs; constructor; [by apply denotes_opt_read|done].
Qed.

(** One iteration of the loop: [results] is extended by the contribution
    of the path, [pathKeys] loses its last element, and every other cell
    is as before. *)
Lemma path_iteration_refines ok obj t pk r keys rs trs h :
  (∀ l, length h ≤ l → ok l) →
  ¬ ok pk → ¬ ok r → pk ≠ r →
  h !! pk = Some (Arr (VString <$> keys)) →
  h !! r = Some (Arr rs) →
  Forall2 (denotes ok h) rs trs →
  denotes ok h obj t →
  ∃ h' rs',
    path_iteration env obj (VRef r) (VRef pk) h = (Normal tt, h')
    ∧ h' !! r = Some (Arr rs')
    ∧ Forall2 (denotes ok h') rs' (trs ++ option_list (Tree.path_result inh t keys))
    ∧ grows ok h h'
    ∧ (∀ l c, l ≠ pk → l ≠ r → h !! l = Some c → h' !! l = Some c).
Proof.
  intros Hok Hpk_ok Hr_ok Hne Hpk Hr Hrs Hobj.
  unfold path_iteration. unfold bind at 1.
  rewrite (Array_length_run h (VRef pk) (VString <$> keys))
    by (unfold array_at; by rewrite Hpk).
  rewrite length_fmap.
  destruct keys as [|k0 ks0] using rev_ind.
  { exists h, rs. cbn. rewrite app_nil_r. split; [done|]. split; [done|].
    split; [done|]. split; [apply grows_refl|done]. }
  clear IHks0. rename ks0 into prefix. rename k0 into accessor.
  rewrite length_app. cbn [length]. rewrite Nat.add_1_r. cbn [Nat.eqb].
  rewrite fmap_app in Hpk. cbn [fmap list_fmap] in Hpk.
  unfold bind at 1. rewrite (Array_pop_run h pk _ _ Hpk).
  set (h1 := <[pk := Arr (VString <$> prefix)]> h).
  assert (pk < length h) as Hpk_lt by by eapply lookup_lt_Some.
  assert (grows ok h h1) as Hg1 by by apply grows_store.
  assert (h1 !! pk = Some (Arr (VString <$> prefix))) as Hpk1
    by by apply list_lookup_insert_eq.
  assert (∀ l, length h1 ≤ l → ok l) as Hok1.
  { intros l Hl. apply Hok. unfold h1 in Hl. by rewrite length_insert in Hl. }
  destruct (traverse_loop_refines ok prefix obj t h1 Hok1
              (denotes_grows _ _ _ _ _ Hg1 Hobj)) as [v [new [Hrun Hv]]].
  unfold bind at 1. unfold traverseBasedOnPath at 1. unfold bind at 1.
  rewrite (elements_run h1 (VRef pk) (VString <$> prefix))
    by (unfold array_at; by rewrite Hpk1).
  rewrite Hrun. set (h2 := h1 ++ new) in *.
  assert (grows ok h h2) as Hg2.
  { eapply grows_trans; [exact Hg1|apply grows_app]. }
  assert (∀ l c, l ≠ pk → l ≠ r → h !! l = Some c → h2 !! l = Some c) as Hcells2.
  { intros l c Hl1 Hl2 Hl. unfold h2, h1.
    rewrite lookup_app_l by (rewrite length_insert; by eapply lookup_lt_Some).
    by rewrite list_lookup_insert_ne. }
  assert (h2 !! r = Some (Arr rs)) as Hr2.
  { unfold h2, h1.
    rewrite lookup_app_l by (rewrite length_insert; by eapply lookup_lt_Some).
    by rewrite list_lookup_insert_ne. }
  assert (∀ l, length h2 ≤ l → ok l) as Hok2.
  { intros l Hl. apply Hok. destruct Hg2 as [_ Hlen]. lia. }
  rewrite path_result_final. cbn zeta.
  rewrite (denotes_is_undefined _ _ _ _ Hv).
  destruct (Tree.is_undefined (Tree.traverse inh t prefix)) eqn:Hundef; cbn [negb].
  { exists h2, rs. cbn. rewrite app_nil_r. split; [done|]. split; [done|].
    split; [by eapply Forall2_denotes_grows|]. done. }
  destruct (final_value_refines ok v _ accessor h2 Hok2 Hv) as [fv [new2 [Hrun2 Hfv]]].
  set (h3 := h2 ++ new2) in *.
  assert (grows ok h h3) as Hg3.
  { eapply grows_trans; [exact Hg2|apply grows_app]. }
  assert (h3 !! r = Some (Arr rs)) as Hr3.
  { unfold h3. rewrite lookup_app_l; [done|]. by eapply lookup_lt_Some. }
  rewrite Hrun2.
  rewrite (denotes_is_undefined _ _ _ _ Hfv).
  destruct (Tree.is_undefined (Tree.final_value inh _ accessor)) eqn:Hundef2; cbn [negb].
  { exists h3, rs. cbn. rewrite app_nil_r. split; [done|]. split; [done|].
    split; [by eapply Forall2_denotes_grows|]. split; [done|].
    intros l c Hl1 Hl2 Hl. unfold h3. rewrite lookup_app_l.
    - by apply Hcells2.
    - eapply lookup_lt_Some. by apply Hcells2. }
  rewrite (Array_push_run h3 r rs fv Hr3).
  set (h4 := <[r := Arr (rs ++ [fv])]> h3).
  assert (grows ok h3 h4) as Hg4 by by apply grows_store.
  exists h4, (rs ++ [fv]). split; [done|]. split.
  { apply list_lookup_insert_eq. by eapply lookup_lt_Some. }
  split.
  { cbn [option_list]. apply Forall2_app.
    - eapply Forall2_denotes_grows; [|exact Hrs]. by eapply grows_trans.
    - constructor; [|constructor]. by eapply denotes_grows. }
  split; [by eapply grows_trans|].
  intros l c Hl1 Hl2 Hl. unfold h4. rewrite list_lookup_insert_ne by done.
  unfold h3. rewrite lookup_app_l.
  - by apply Hcells2.
  - eapply lookup_lt_Some. by apply Hcells2.
Qed.

Lemma for_allPaths_refines ok obj t r pks keyss :
  ¬ ok r →
  Forall (λ pk, ¬ ok pk ∧ pk ≠ r) pks →
  NoDup pks →
  ∀ rs trs h,
    (∀ l, length h ≤ l → ok l) →
    Forall2 (λ pk keys, h !! pk = Some (Arr (VString <$> keys))) pks keyss →
    h !! r = Some (Arr rs) →
    Forall2 (denotes ok h) rs trs →
    denotes ok h obj t →
    ∃ h' rs',
      for_allPaths env obj (VRef r) (VRef <$> pks) h = (Normal tt, h')
      ∧ h' !! r = Some (Arr rs')
      ∧ Forall2 (denotes ok h') rs' (trs ++ omap (Tree.path_result inh t) keyss)
      ∧ grows ok h h'.
Proof.
  intros Hr_ok Hpks Hnodup. revert keyss.
  induction pks as [|pk pks IH]; intros keyss rs trs h Hok Hcells Hr Hrs Hobj.
  { apply Forall2_nil_inv_l in Hcells as ->. exists h, rs. cbn. rewrite app_nil_r.
    split; [done|]. split; [done|]. split; [done|apply grows_refl]. }
  apply Forall2_cons_inv_l in Hcells as [keys [keyss' [Hpk [Hcells ->]]]].
  apply Forall_cons in Hpks as [[Hpk_ok Hpk_r] Hpks].
  apply NoDup_cons in Hnodup as [Hpk_notin Hnodup].
  destruct (path_iteration_refines ok obj t pk r keys rs trs h
              Hok Hpk_ok Hr_ok Hpk_r Hpk Hr Hrs Hobj)
    as [h1 [rs1 [Hrun1 [Hr1 [Hrs1 [Hg1 Hcells1]]]]]].
  destruct (IH Hpks Hnodup keyss' rs1
              (trs ++ option_list (Tree.path_result inh t keys)) h1)
    as [h2 [rs2 [Hrun2 [Hr2 [Hrs2 Hg2]]]]].
  - intros l Hl. apply Hok. destruct Hg1 as [_ Hlen]. lia.
  - clear -Hcells Hcells1 Hpk_notin Hpks.
    induction Hcells as [|pk' keys' pks keyss Hpk' _ IH]; [constructor|].
    apply Forall_cons in Hpks as [[_ Hpk'_r] Hpks].
    apply not_elem_of_cons in Hpk_notin as [Hne Hnotin].
    constructor; [|by apply IH]. apply Hcells1; [congruence|done|done].
  - done.
  - done.
  - by eapply denotes_grows.
  - exists h2, rs2. split.
    + cbn [fmap list_fmap for_allPaths]. unfold bind. by rewrite Hrun1.
    + split; [done|]. split; [|by eapply grows_trans].
      cbn [omap list_omap]. destruct (Tree.path_result inh t keys); cbn in *.
      * by rewrite <- app_assoc in Hrs2.
      * by rewrite app_nil_r in Hrs2.
Qed.

Lemma split_all_run ps h :
  mapM_heap String_split_call (VString <$> ps) h
  = (Normal (VRef <$> seq (length h) (length ps)),
     h ++ map (λ p, Arr (VString <$> String_split slash p)) ps).
Proof.
  revert h. induction ps as [|p ps IH]; intros h.
  { cbn. by rewrite app_nil_r. }
  cbn [fmap list_fmap mapM_heap]. unfold bind at 1. cbn [String_split_call alloc].
  unfold bind at 1. rewrite IH. cbn [ret length seq map].
  rewrite length_app. cbn [length]. rewrite Nat.add_1_r.
  by rewrite <- app_assoc.
Qed.

Lemma loop_refines obj t ps h :
  denotes everywhere h obj t →
  let allPaths := VRef (length h + length ps) in
  let results := VRef (S (length h + length ps)) in
  ∃ v h',
    bind (elements allPaths) (λ pathKeysList,
      bind (for_allPaths env obj results pathKeysList) (λ _,
        bind (Array_length results) (λ len,
          if 1 <? len then ret results else Array_at results 0)))
      (loop_heap h ps)
    = (Normal v, h')
    ∧ denotes everywhere h' v
        (Tree.unwrap (omap (Tree.path_result inh t) (map (String_split slash) ps))).
Proof.
  intros Hobj. cbn zeta.
  set (n := length h). set (k := length ps). set (r := S (n + k)).
  set (ok := λ l : nat, l < n ∨ r < l).
  set (h3 := loop_heap h ps).
  assert (length (split_cells ps) = k) as Hlen_split by apply length_map.
  assert (length h3 = S (S (n + k))) as Hlen3.
  { unfold h3, loop_heap. rewrite !length_app, Hlen_split. cbn. fold n. lia. }
  assert (h3 !! (n + k) = Some (Arr (VRef <$> seq n k))) as Hall.
  { unfold h3, loop_heap. rewrite lookup_app_r by (fold n; lia). fold n.
    rewrite lookup_app_r by lia. rewrite Hlen_split.
    replace (n + k - n - k) with 0 by lia. done. }
  assert (h3 !! r = Some (Arr [])) as Hr.
  { unfold h3, loop_heap. rewrite lookup_app_r by (fold n; lia). fold n.
    rewrite lookup_app_r by lia. rewrite Hlen_split.
    replace (r - n - k) with 1 by lia. done. }
  assert (Forall2 (λ pk keys, h3 !! pk = Some (Arr (VString <$> keys)))
            (seq n k) (map (String_split slash) ps)) as Hcells.
  { apply Forall2_same_length_lookup_2.
    { by rewrite length_seq, length_map. }
    intros i pk keys Hpk Hkeys.
    apply lookup_seq in Hpk as [-> Hi].
    rewrite list_lookup_fmap in Hkeys.
    destruct (ps !! i) as [p|] eqn:Hp; [|done]. injection Hkeys as <-.
    unfold h3, loop_heap. rewrite lookup_app_r by (fold n; lia). fold n.
    replace (n + i - n) with i by lia.
    rewrite lookup_app_l by lia.
    unfold split_cells. by rewrite list_lookup_fmap, Hp. }
  assert (denotes ok h3 obj t) as Hobj3.
  { eapply denotes_mono; [|exact Hobj]. intros l c _ Hl.
    assert (l < n) by by eapply lookup_lt_Some.
    split; [by left|]. unfold h3, loop_heap. by rewrite lookup_app_l. }
  destruct (for_allPaths_refines ok obj t r (seq n k)
              (map (String_split slash) ps)) with (rs := @nil value)
              (trs := @nil Tree.value) (h := h3)
    as [h' [rs' [Hrun [Hr' [Hrs' Hg]]]]].
  { unfold ok. lia. }
  { apply Forall_forall. intros pk Hpk%elem_of_seq. unfold ok. lia. }
  { apply NoDup_seq. }
  { intros l Hl. unfold ok. lia. }
  { done. }
  { done. }
  { constructor. }
  { done. }
  cbn [app] in Hrs'.
  set (trs := omap (Tree.path_result inh t) (map (String_split slash) ps)) in *.
  assert (Forall2 (denotes everywhere h') rs' trs) as Hrs_all.
  { eapply Forall2_impl; [exact Hrs'|]. intros x y.
    apply denotes_mono. intros l c _ Hl. done. }
  unfold bind at 1.
  rewrite (elements_run h3 _ (VRef <$> seq n k)) by (unfold array_at; by rewrite Hall).
  unfold bind at 1. fold r. rewrite Hrun.
  unfold bind at 1.
  rewrite (Array_length_run h' (VRef r) rs') by (unfold array_at; by rewrite Hr').
  rewrite (Forall2_length _ _ _ Hrs_all).
  destruct trs as [|t1 [|t2 trs]]; cbn [length Nat.ltb Nat.leb Tree.unwrap].
  - apply Forall2_nil_inv_r in Hrs_all as ->.
    eexists _, h'. split.
    + unfold Array_at, bind. rewrite (elements_run h' (VRef r) [])
        by (unfold array_at; by rewrite Hr'). done.
    + constructor.
  - apply Forall2_cons_inv_r in Hrs_all as [x [rs'' [Hx [Hnil ->]]]].
    apply Forall2_nil_inv_r in Hnil as ->.
    eexists _, h'. split.
    + unfold Array_at, bind. rewrite (elements_run h' (VRef r) [x])
        by (unfold array_at; by rewrite Hr'). done.
    + done.
  - eexists _, h'. split; [done|]. by apply (denotes_array _ _ r rs').
Qed.



End Refinement.

(** The refinement at work: the two hosts without prototypes agree, cell 4
    of [Store.items_heap] stands for [items_tree], and so the run of the
    heap embedding on it follows the tree embedding. *)
Lemma bare_hosts_agree : hosts_agree Store.bare Tree.bare.
Proof.
  split.
  - intros h v k. by exists Store.VUndefined.
  - intros ok h v t k w _ [= <-]. constructor.
Qed.

Lemma denotes_singleton ok h l k v t :
  ok l → h !! l = Some (Store.Obj {[ k := v ]}) → denotes ok h v t →
  denotes ok h (Store.VRef l) (Tree.obj1 k t).
Proof.
  intros Hok Hl Hv. apply (denotes_object _ _ l {[ k := v ]}); [done|done|].
  intros k'. destruct (decide (k = k')) as [->|Hne].
  - rewrite !lookup_singleton_eq. by constructor.
  - rewrite !lookup_singleton_ne by done. constructor.
Qed.

Lemma items_heap_denotes : denotes everywhere Store.items_heap (Store.VRef 4) items_tree.
Proof.
  apply (denotes_singleton everywhere Store.items_heap 4 "items" (Store.VRef 3)
           (Tree.VArray [Tree.obj1 "v" (Tree.num 1); Tree.obj1 "v" (Tree.num 2);
                         Tree.obj1 "v" (Tree.num 0)]) I eq_refl).
  apply (denotes_array everywhere Store.items_heap 3
           [Store.VRef 0; Store.VRef 1; Store.VRef 2] _ I eq_refl).
  constructor; [|constructor; [|constructor; [|constructor]]].
  - exact (denotes_singleton everywhere Store.items_heap 0 "v" (Store.num 1) (Tree.num 1)
             I eq_refl (denotes_number _ _ _)).
  - exact (denotes_singleton everywhere Store.items_heap 1 "v" (Store.num 2) (Tree.num 2)
             I eq_refl (denotes_number _ _ _)).
  - exact (denotes_singleton everywhere Store.items_heap 2 "v" (Store.num 0) (Tree.num 0)
             I eq_refl (denotes_number _ _ _)).
Qed.


(** * Further properties of the path query *)

Section QueryFacts.

Import Tree.

(** A traversal may be cut anywhere: following [pre ++ rest] from [obj] is
    following [rest] from where [pre] leads. *)
Theorem traversal_composes (inherited : host) (obj current : value) (pre rest : list string) :
  traverseBasedOnPath inherited obj pre = Normal current →
  traverseBasedOnPath inherited obj (pre ++ rest)
  = traverseBasedOnPath inherited current rest.
Proof.
  intros Hpre. apply traverse_Normal in Hpre.
  by rewrite !traverseBasedOnPath_traverse, traverse_app, Hpre.
Qed.

Lemma traversal_composes_witness :
  traverseBasedOnPath bare (obj1 "a" (obj1 "b" (obj1 "c" (num 7)))) (["a"] ++ ["b"; "c"])
  = traverseBasedOnPath bare (obj1 "b" (obj1 "c" (num 7))) ["b"; "c"].
Proof.
  apply (traversal_composes bare (obj1 "a" (obj1 "b" (obj1 "c" (num 7))))
           (obj1 "b" (obj1 "c" (num 7))) ["a"] ["b"; "c"]).
  vm_compute. reflexivity.
Defined.

Lemma path_result_defined (inherited : host) (obj : value) (segments : list string) (v : value) :
  path_result inherited obj segments = Some v → is_undefined v = false.
Proof.
  unfold path_result. destruct (last segments) as [accessor|]; [|done].
  destruct (traverse inherited obj (removelast segments)); try done;
    try (cbn zeta; destruct (is_undefined (opt_read _ _ _)) eqn:H; [done|];
         by intros [= <-]).
  by intros [= <-].
Qed.

Lemma per_path_results_defined (inherited : host) (obj : value) (paths : paths_arg) :
  Forall (λ v, is_undefined v = false) (per_path_results inherited obj paths).
Proof.
  unfold per_path_results. apply Forall_forall. intros v Hv.
  apply list_elem_of_omap in Hv as [segments [_ Hv]]. by eapply path_result_defined.
Qed.

(** [undefined] is never one of the results, so the call returns
    [undefined] exactly when no path contributes a value. *)
Theorem extract_undefined_iff_no_result (inherited : host) (obj : value) (paths : paths_arg) :
  Forall (λ v, is_undefined v = false) (per_path_results inherited obj paths)
  ∧ (getValuesFromObjectByPath inherited obj paths = Normal VUndefined
     ↔ per_path_results inherited obj paths = []).
Proof.
  split; [apply per_path_results_defined|].
  rewrite getValuesFromObjectByPath_results.
  pose proof (per_path_results_defined inherited obj paths) as Hdef.
  destruct (per_path_results inherited obj paths) as [|v [|w rest]]; cbn.
  - done.
  - apply Forall_cons in Hdef as [Hv _]. split; [|done].
    intros [= ->]. done.
  - split; done.
Qed.

(** The output does not tell its arity: two or more results read exactly
    as one result that is an array of them. *)
Theorem several_results_read_as_one_array (inherited : host) (obj : value) (paths : paths_arg) :
  2 ≤ length (per_path_results inherited obj paths) →
  getValuesFromObjectByPath inherited
    (obj1 "x" (VArray (per_path_results inherited obj paths))) (PathString "x")
  = getValuesFromObjectByPath inherited obj paths.
Proof.
  intros Hlen. rewrite single_path, getValuesFromObjectByPath_results.
  set (rs := per_path_results inherited obj paths) in *.
  assert (path_result inherited (obj1 "x" (VArray rs)) (String_split slash "x")
          = Some (VArray rs)) as ->.
  { assert (String_split slash "x" = ["x"]) as -> by (vm_compute; reflexivity).
    unfold path_result, obj1. cbn [last removelast traverse].
    unfold opt_read, get. cbn [is_nullish own_property].
    by rewrite lookup_singleton_eq. }
  destruct rs as [|v [|w rest]]; cbn in *; [lia|lia|done].
Qed.

Lemma several_results_read_as_one_array_witness :
  getValuesFromObjectByPath bare
    (obj1 "x" (VArray (per_path_results bare (obj1 "a" (num 1)) (PathArray ["a"; "a"]))))
    (PathString "x")
  = getValuesFromObjectByPath bare (obj1 "a" (num 1)) (PathArray ["a"; "a"]).
Proof.
  apply (several_results_read_as_one_array bare (obj1 "a" (num 1)) (PathArray ["a"; "a"])).
  vm_compute. lia.
Defined.

Lemma keep_truthy_all (xs : list value) :
  Forall (λ x, Boolean x = true) xs → keep_truthy xs = xs.
Proof.
  unfold keep_truthy. induction 1 as [|x xs Hx _ IH]; [done|].
  rewrite filter_cons_True by done. by rewrite IH.
Qed.

Lemma flatten_no_arrays (xs : list value) :
  Forall (λ x, Array_isArray x = false) xs → flatten xs = xs.
Proof.
  unfold flatten. induction 1 as [|x xs Hx _ IH]; [done|].
  cbn [map concat]. rewrite IH. by destruct x.
Qed.

(** On an array whose elements are truthy and not arrays the marker [[n]]
    changes nothing: [items/[n]/v] and [items/v] are the same query there. *)
Theorem wildcard_is_neutral_on_plain_arrays (inherited : host) (xs : list value) (rest : list string) :
  Forall (λ x, Boolean x = true ∧ Array_isArray x = false) xs →
  traverseBasedOnPath inherited (VArray xs) (wildcard :: rest)
  = traverseBasedOnPath inherited (VArray xs) rest.
Proof.
  intros Hxs. rewrite !traverseBasedOnPath_traverse. f_equal.
  cbn [traverse is_nullish]. destruct (decide (wildcard = wildcard)); [|done].
  rewrite keep_truthy_all, flatten_no_arrays; [done| |].
  - eapply Forall_impl; [exact Hxs|]. by intros x [_ ?].
  - eapply Forall_impl; [exact Hxs|]. by intros x [? _].
Qed.

Lemma wildcard_is_neutral_on_plain_arrays_witness :
  traverseBasedOnPath bare (VArray [obj1 "v" (num 1); obj1 "v" (num 2)]) [wildcard; "v"]
  = traverseBasedOnPath bare (VArray [obj1 "v" (num 1); obj1 "v" (num 2)]) ["v"].
Proof.
  apply (wildcard_is_neutral_on_plain_arrays bare [obj1 "v" (num 1); obj1 "v" (num 2)] ["v"]).
  repeat constructor.
Defined.

End QueryFacts.

(** * The heap embedding on any heap *)

Section StoreCompletes.

Import Store.

Variable env : Store.host.

(** A read [v?.[k]] completes with the value read, or throws what the host
    throws. *)
Lemma opt_member_cases h v k :
  opt_member env v (VString k) h = (Normal (opt_read env h v k), h)
  ∨ ∃ e, opt_member env v (VString k) h = (Throw e, h) ∧ thrown_by_host env e.
Proof.
  unfold opt_member, member, opt_read, get. destruct (is_nullish v); [by left|].
  cbn [to_property_key]. destruct (own_property h v k); [by left|].
  destruct (inherited env h v k) as [w|e] eqn:Hread; [by left|].
  right. exists e. split; [done|]. by exists h, v, k.
Qed.

Lemma mapM_opt_member_cases key xs h :
  mapM_heap (λ item, opt_member env item (VString key)) xs h
  = (Normal (map (λ x, opt_read env h x key) xs), h)
  ∨ ∃ e, mapM_heap (λ item, opt_member env item (VString key)) xs h = (Throw e, h)
         ∧ thrown_by_host env e.
Proof.
  induction xs as [|x xs IH]; [by left|].
  cbn [mapM_heap map].
  destruct (opt_member_cases h x key) as [Hx|[e [Hx He]]].
  - destruct IH as [IH|[e [IH He]]].
    + left. unfold bind at 1. rewrite Hx. unfold bind at 1. by rewrite IH.
    + right. exists e. split; [|done].
      unfold bind at 1. rewrite Hx. unfold bind at 1. by rewrite IH.
  - right. exists e. split; [|done]. unfold bind at 1. by rewrite Hx.
Qed.

Lemma Array_map_opt_member_cases arr xs key h :
  array_at h arr = Some xs →
  Array_map (λ item, opt_member env item (VString key)) arr h
  = (Normal (VRef (length h)), h ++ [Arr (map (λ x, opt_read env h x key) xs)])
  ∨ ∃ e, Array_map (λ item, opt_member env item (VString key)) arr h = (Throw e, h)
         ∧ thrown_by_host env e.
Proof.
  intros Harr. unfold Array_map, bind. rewrite (elements_run _ _ _ Harr).
  destruct (mapM_opt_member_cases key xs h) as [->|[e [-> He]]]; [by left|].
  right. by exists e.
Qed.

(** Filter and flat after a map that completed. *)
Lemma distribute_after_map (f : value → M value) cur mapped h :
  Array_map f cur h = (Normal (VRef (length h)), h ++ [Arr mapped]) →
  ∃ v new, ∀ B (K : value → M B),
    bind (Array_map f cur) (λ mapped,
      bind (Array_filter Boolean mapped) (λ kept,
        bind (Array_flat kept) K)) h
    = K v (h ++ new).
Proof.
  intros Hmap.
  set (kept := filter (λ x, Boolean x = true) mapped).
  set (h1 := h ++ [Arr mapped]). set (h2 := h1 ++ [Arr kept]).
  set (flat := concat (map (flat_item h2) kept)).
  exists (VRef (length h2)), [Arr mapped; Arr kept; Arr flat]. intros B K.
  unfold bind at 1. rewrite Hmap.
  unfold bind at 1. fold h1.
  rewrite (Array_filter_run Boolean _ mapped h1) by apply array_at_new.
  fold kept. fold h2. unfold bind at 1.
  rewrite (Array_flat_run _ kept h2) by apply array_at_new.
  fold flat. unfold h2, h1. by rewrite <- !app_assoc.
Qed.

Lemma distribute_run (f : value → M value) (g : value → value) cur xs h :
  array_at h cur = Some xs →
  (∀ x, f x h = (Normal (g x), h)) →
  ∃ v new, ∀ B (K : value → M B),
    bind (Array_map f cur) (λ mapped,
      bind (Array_filter Boolean mapped) (λ kept,
        bind (Array_flat kept) K)) h
    = K v (h ++ new).
Proof.
  intros Harr Hf. apply (distribute_after_map f cur (map g xs)).
  by apply Array_map_run.
Qed.

Lemma ends_well_impl {A} (r : completion A * heap) (Q Q' : A → heap → Prop) :
  (∀ a h, Q a h → Q' a h) → ends_well env r Q → ends_well env r Q'.
Proof. intros HQ. destruct r as [[a|e] h]; cbn; auto. Qed.

Lemma ends_well_cases {A} (r : completion A * heap) (Q : A → heap → Prop) :
  ends_well env r Q →
  (∃ a h', r = (Normal a, h') ∧ Q a h') ∨ (∃ e h', r = (Throw e, h') ∧ thrown_by_host env e).
Proof. destruct r as [[a|e] h]; cbn; intros H; [left|right]; by eexists _, _. Qed.

(** The traversal completes, or throws what the host throws. *)
Lemma traverse_loop_outcome keys :
  ∀ cur h,
    ends_well env (traverse_loop env cur (VString <$> keys) h) (λ _ h', ∃ new, h' = h ++ new).
Proof.
  induction keys as [|key rest IH]; intros cur h.
  { cbn. exists []. by rewrite app_nil_r. }
  cbn [fmap list_fmap traverse_loop].
  destruct (is_nullish cur).
  { cbn. exists []. by rewrite app_nil_r. }
  rewrite is_wildcard_string.
  assert (∀ v new,
    ends_well env (traverse_loop env v (VString <$> rest) (h ++ new))
      (λ _ h', ∃ new', h' = h ++ new')) as Hrest.
  { intros v new. eapply ends_well_impl; [|apply IH].
    intros _ h' [new' ->]. exists (new ++ new'). by rewrite app_assoc. }
  destruct (array_at h cur) as [xs|] eqn:Harr.
  - assert (Array_isArray cur h = (Normal true, h)) as HisArr.
    { unfold Array_isArray. rewrite Harr. by rewrite bool_decide_eq_true_2. }
    destruct (bool_decide (key = wildcard)).
    + unfold bind at 1. rewrite HisArr. cbn [negb].
      destruct (distribute_run (λ item, ret item) id cur xs h Harr) as [v [new Hrun]];
        [done|].
      rewrite Hrun. apply Hrest.
    + unfold bind at 1. rewrite HisArr.
      destruct (Array_map_opt_member_cases cur xs key h Harr) as [Hmap|[e [Hmap He]]].
      * destruct (distribute_after_map _ cur _ h Hmap) as [v [new Hrun]].
        rewrite Hrun. apply Hrest.
      * unfold bind at 1. by rewrite Hmap.
  - assert (Array_isArray cur h = (Normal false, h)) as HisArr.
    { unfold Array_isArray. rewrite Harr. rewrite bool_decide_eq_false_2; [done|].
      by intros [? ?]. }
    destruct (bool_decide (key = wildcard)).
    + unfold bind at 1. rewrite HisArr. cbn [negb].
      cbn. exists []. by rewrite app_nil_r.
    + unfold bind at 1. rewrite HisArr. unfold bind at 1.
      destruct (opt_member_cases h cur key) as [->|[e [-> He]]]; [apply IH|done].
Qed.

Lemma final_value_outcome v accessor h :
  (∃ fv new, ∀ B (K : value → M B),
     bind (Array_isArray v) (λ isArr,
       bind (if isArr : bool then
               bind (Array_map (λ item, opt_member env item (VString accessor)) v)
                 (λ mapped, Array_filter Boolean mapped)
             else opt_member env v (VString accessor)) K) h
     = K fv (h ++ new))
  ∨ (∃ e, thrown_by_host env e ∧ ∀ B (K : value → M B),
       bind (Array_isArray v) (λ isArr,
         bind (if isArr : bool then
                 bind (Array_map (λ item, opt_member env item (VString accessor)) v)
                   (λ mapped, Array_filter Boolean mapped)
               else opt_member env v (VString accessor)) K) h
       = (Throw e, h)).
Proof.
  destruct (array_at h v) as [ys|] eqn:Harr.
  - destruct (Array_map_opt_member_cases v ys accessor h Harr) as [Hmap|[e [Hmap He]]].
    + left. set (mapped := map (λ x, opt_read env h x accessor) ys) in *.
      set (kept := filter (λ x, Boolean x = true) mapped).
      exists (VRef (S (length h))), [Arr mapped; Arr kept]. intros B K.
      unfold bind at 1. unfold Array_isArray at 1. rewrite Harr.
      rewrite bool_decide_eq_true_2 by done. unfold bind. rewrite Hmap.
      rewrite (Array_filter_run Boolean _ mapped) by apply array_at_new.
      rewrite length_app. cbn. rewrite Nat.add_1_r. by rewrite <- app_assoc.
    + right. exists e. split; [done|]. intros B K.
      unfold bind at 1. unfold Array_isArray at 1. rewrite Harr.
      rewrite bool_decide_eq_true_2 by done. unfold bind. by rewrite Hmap.
  - destruct (opt_member_cases h v accessor) as [Hread|[e [Hread He]]].
    + left. eexists _, []. intros B K. rewrite app_nil_r.
      unfold bind at 1. unfold Array_isArray at 1. rewrite Harr.
      rewrite bool_decide_eq_false_2 by (by intros [? ?]).
      unfold bind at 1. by rewrite Hread.
    + right. exists e. split; [done|]. intros B K.
      unfold bind at 1. unfold Array_isArray at 1. rewrite Harr.
      rewrite bool_decide_eq_false_2 by (by intros [? ?]).
      unfold bind at 1. by rewrite Hread.
Qed.

Lemma path_iteration_outcome obj pk r keys rs h :
  pk ≠ r →
  h !! pk = Some (Arr (VString <$> keys)) →
  h !! r = Some (Arr rs) →
  ends_well env (path_iteration env obj (VRef r) (VRef pk) h)
    (λ _ h', ∃ rs', h' !! r = Some (Arr rs')
                    ∧ ∀ l c, l ≠ pk → l ≠ r → h !! l = Some c → h' !! l = Some c).
Proof.
  intros Hne Hpk Hr.
  unfold path_iteration. unfold bind at 1.
  rewrite (Array_length_run h (VRef pk) (VString <$> keys))
    by (unfold array_at; by rewrite Hpk).
  rewrite length_fmap.
  destruct keys as [|accessor prefix _] using rev_ind.
  { cbn. by exists rs. }
  rewrite length_app. cbn [length]. rewrite Nat.add_1_r. cbn [Nat.eqb].
  rewrite fmap_app in Hpk. cbn [fmap list_fmap] in Hpk.
  unfold bind at 1. rewrite (Array_pop_run h pk _ _ Hpk).
  set (h1 := <[pk := Arr (VString <$> prefix)]> h).
  assert (pk < length h) as Hpk_lt by by eapply lookup_lt_Some.
  assert (h1 !! pk = Some (Arr (VString <$> prefix))) as Hpk1
    by by apply list_lookup_insert_eq.
  unfold bind at 1. unfold traverseBasedOnPath at 1. unfold bind at 1.
  rewrite (elements_run h1 (VRef pk) (VString <$> prefix))
    by (unfold array_at; by rewrite Hpk1).
  destruct (ends_well_cases _ _ (traverse_loop_outcome prefix obj h1))
    as [(v & h2 & Hrun & [new ->])|(e & h' & Hrun & He)].
  2:{ by rewrite Hrun. }
  rewrite Hrun. set (h2 := h1 ++ new) in *.
  assert (∀ l c, l ≠ pk → h !! l = Some c → h2 !! l = Some c) as Hcells2.
  { intros l c Hl1 Hl. unfold h2, h1.
    rewrite lookup_app_l by (rewrite length_insert; by eapply lookup_lt_Some).
    by rewrite list_lookup_insert_ne. }
  destruct (negb (is_undefined v)).
  2:{ cbn. exists rs. split; [by apply Hcells2|]. intros l c ? ? ?. by apply Hcells2. }
  destruct (final_value_outcome v accessor h2) as [[fv [new2 Hrun2]]|[e [He Hrun2]]].
  2:{ by rewrite Hrun2. }
  rewrite Hrun2. set (h3 := h2 ++ new2).
  assert (∀ l c, l ≠ pk → h !! l = Some c → h3 !! l = Some c) as Hcells3.
  { intros l c Hl1 Hl. unfold h3. rewrite lookup_app_l.
    - by apply Hcells2.
    - eapply lookup_lt_Some. by apply Hcells2. }
  destruct (negb (is_undefined fv)).
  2:{ cbn. exists rs. split; [by apply Hcells3|]. intros l c ? ? ?. by apply Hcells3. }
  rewrite (Array_push_run h3 r rs fv) by by apply Hcells3.
  cbn. exists (rs ++ [fv]). split.
  { apply list_lookup_insert_eq. eapply lookup_lt_Some. by apply Hcells3. }
  intros l c Hl1 Hl2 Hl. rewrite list_lookup_insert_ne by done. by apply Hcells3.
Qed.

Lemma for_allPaths_outcome obj r pks keyss :
  Forall (λ pk, pk ≠ r) pks →
  NoDup pks →
  ∀ rs h,
    Forall2 (λ pk keys, h !! pk = Some (Arr (VString <$> keys))) pks keyss →
    h !! r = Some (Arr rs) →
    ends_well env (for_allPaths env obj (VRef r) (VRef <$> pks) h)
      (λ _ h', ∃ rs', h' !! r = Some (Arr rs')).
Proof.
  intros Hpks Hnodup. revert keyss.
  induction pks as [|pk pks IH]; intros keyss rs h Hcells Hr.
  { cbn. by exists rs. }
  apply Forall2_cons_inv_l in Hcells as [keys [keyss' [Hpk [Hcells ->]]]].
  apply Forall_cons in Hpks as [Hpk_r Hpks].
  apply NoDup_cons in Hnodup as [Hpk_notin Hnodup].
  cbn [fmap list_fmap for_allPaths]. unfold bind at 1.
  destruct (ends_well_cases _ _ (path_iteration_outcome obj pk r keys rs h Hpk_r Hpk Hr))
    as [([] & h1 & Hrun1 & rs1 & Hr1 & Hcells1)|(e & h1 & Hrun1 & He)].
  2:{ by rewrite Hrun1. }
  rewrite Hrun1. apply (IH Hpks Hnodup keyss' rs1 h1); [|done].
  clear -Hcells Hcells1 Hpk_notin Hpks.
  induction Hcells as [|pk' keys' pks keyss Hpk' _ IH]; [constructor|].
  apply Forall_cons in Hpks as [Hpk'_r Hpks].
  apply not_elem_of_cons in Hpk_notin as [Hne Hnotin].
  constructor; [|by apply IH]. apply Hcells1; [congruence|done|done].
Qed.

Lemma loop_outcome obj ps h :
  let allPaths := VRef (length h + length ps) in
  let results := VRef (S (length h + length ps)) in
  ends_well env
    (bind (elements allPaths) (λ pathKeysList,
       bind (for_allPaths env obj results pathKeysList) (λ _,
         bind (Array_length results) (λ len,
           if 1 <? len then ret results else Array_at results 0)))
       (loop_heap h ps))
    (λ _ _, True).
Proof.
  cbn zeta.
  set (n := length h). set (k := length ps). set (r := S (n + k)).
  set (h3 := loop_heap h ps).
  assert (length (split_cells ps) = k) as Hlen_split by apply length_map.
  assert (h3 !! (n + k) = Some (Arr (VRef <$> seq n k))) as Hall.
  { unfold h3, loop_heap. rewrite lookup_app_r by (fold n; lia). fold n.
    rewrite lookup_app_r by lia. rewrite Hlen_split.
    replace (n + k - n - k) with 0 by lia. done. }
  assert (h3 !! r = Some (Arr [])) as Hr.
  { unfold h3, loop_heap. rewrite lookup_app_r by (fold n; lia). fold n.
    rewrite lookup_app_r by lia. rewrite Hlen_split.
    replace (r - n - k) with 1 by lia. done. }
  assert (Forall2 (λ pk keys, h3 !! pk = Some (Arr (VString <$> keys)))
            (seq n k) (map (String_split slash) ps)) as Hcells.
  { apply Forall2_same_length_lookup_2.
    { by rewrite length_seq, length_map. }
    intros i pk keys Hpk Hkeys.
    apply lookup_seq in Hpk as [-> Hi].
    rewrite list_lookup_fmap in Hkeys.
    destruct (ps !! i) as [p|] eqn:Hp; [|done]. injection Hkeys as <-.
    unfold h3, loop_heap. rewrite lookup_app_r by (fold n; lia). fold n.
    replace (n + i - n) with i by lia.
    rewrite lookup_app_l by lia.
    unfold split_cells. by rewrite list_lookup_fmap, Hp. }
  unfold bind at 1.
  rewrite (elements_run h3 _ (VRef <$> seq n k)) by (unfold array_at; by rewrite Hall).
  unfold bind at 1. fold r.
  destruct (ends_well_cases _ _
              (for_allPaths_outcome obj r (seq n k) (map (String_split slash) ps)
                 ltac:(apply Forall_forall; intros pk Hpk%elem_of_seq; lia)
                 (NoDup_seq n k) [] h3 Hcells Hr))
    as [([] & h' & Hrun & rs' & Hr')|(e & h' & Hrun & He)].
  2:{ by rewrite Hrun. }
  rewrite Hrun.
  unfold bind at 1.
  rewrite (Array_length_run h' (VRef r) rs') by (unfold array_at; by rewrite Hr').
  destruct (1 <? length rs'); [done|].
  unfold Array_at, bind.
  by rewrite (elements_run h' (VRef r) rs') by (unfold array_at; by rewrite Hr').
Qed.

(** The call on a path string or an array of path strings starts the loop
    on the heap with the split paths. *)
Lemma extract_starts_loop h obj spaths paths :
  paths_denote h spaths paths →
  let ps := match paths with PathString p => [p] | PathArray ps => ps end in
  getValuesFromObjectByPath env obj spaths h
  = bind (elements (VRef (length h + length ps))) (λ pathKeysList,
      bind (for_allPaths env obj (VRef (S (length h + length ps))) pathKeysList) (λ _,
        bind (Array_length (VRef (S (length h + length ps)))) (λ len,
          if 1 <? len then ret (VRef (S (length h + length ps)))
          else Array_at (VRef (S (length h + length ps))) 0)))
      (loop_heap h ps).
Proof.
  intros Hpaths. destruct Hpaths as [p|l ps Hl]; cbn zeta.
  - unfold getValuesFromObjectByPath.
    unfold bind at 1. cbn [Array_isArray array_at].
    rewrite bool_decide_eq_false_2 by (by intros [? ?]).
    unfold bind at 1. unfold bind at 1. cbn [String_split_call alloc].
    rewrite length_app. cbn [length].
    unfold bind at 1. cbn [alloc].
    rewrite !length_app. cbn [length].
    unfold loop_heap, split_cells. cbn [map seq fmap list_fmap length].
    rewrite <- !app_assoc. cbn [app].
    replace (length h + 1 + 1) with (S (length h + 1)) by lia.
    done.
  - unfold getValuesFromObjectByPath.
    unfold bind at 1. cbn [Array_isArray array_at]. rewrite Hl.
    rewrite bool_decide_eq_true_2 by done.
    unfold bind at 1. unfold Array_map at 1. unfold bind at 1.
    rewrite (elements_run h (VRef l) (VString <$> ps)) by (unfold array_at; by rewrite Hl).
    unfold bind at 1. rewrite split_all_run. cbn [alloc].
    unfold bind at 1. cbn [alloc].
    rewrite !length_app, !length_map. cbn [length].
    unfold loop_heap, split_cells.
    rewrite <- !app_assoc. cbn [app].
    replace (length h + length ps + 1) with (S (length h + length ps)) by lia.
    done.
Qed.

(** The call completes, or throws what the host throws. *)
Lemma extract_outcome h obj spaths paths :
  paths_denote h spaths paths →
  ends_well env (getValuesFromObjectByPath env obj spaths h) (λ _ _, True).
Proof.
  intros Hpaths. rewrite (extract_starts_loop h obj spaths paths Hpaths). cbn zeta.
  apply loop_outcome.
Qed.

Lemma traverse_outcome h obj pk keys :
  h !! pk = Some (Arr (VString <$> keys)) →
  ends_well env (traverseBasedOnPath env obj (VRef pk) h) (λ _ _, True).
Proof.
  intros Hpk. unfold traverseBasedOnPath. unfold bind at 1.
  rewrite (elements_run h (VRef pk) (VString <$> keys)) by (unfold array_at; by rewrite Hpk).
  eapply ends_well_impl; [|apply traverse_loop_outcome]. done.
Qed.

Lemma quiet_never_thrown e : quiet env → ¬ thrown_by_host env e.
Proof. intros Hquiet (h & v & k & Hthrow). destruct (Hquiet h v k) as [w Hw]. congruence. Qed.

(** Whatever the heap holds, shared or cyclic structure and dangling
    references included, the call on a path string or an array of path
    strings returns when no read on the prototype chain throws: the
    function throws nothing of its own. *)
Theorem extract_completes_on_any_heap h obj spaths paths :
  quiet env →
  paths_denote h spaths paths →
  ∃ v h', getValuesFromObjectByPath env obj spaths h = (Normal v, h').
Proof.
  intros Hquiet Hpaths.
  destruct (ends_well_cases _ _ (extract_outcome h obj spaths paths Hpaths))
    as [(v & h' & Hrun & _)|(e & h' & _ & He)].
  - by exists v, h'.
  - by apply quiet_never_thrown in He.
Qed.

End StoreCompletes.

Lemma bare_quiet : Store.quiet Store.bare.
Proof. intros h v k. by exists Store.VUndefined. Qed.

Lemma extract_completes_on_any_heap_witness :
  ∃ v h',
    Store.getValuesFromObjectByPath Store.bare (Store.VRef 0)
      (Store.VString "items/[n]/self/items") Store.cyclic_heap
    = (Normal v, h').
Proof.
  apply (extract_completes_on_any_heap Store.bare Store.cyclic_heap (Store.VRef 0)
           (Store.VString "items/[n]/self/items") (PathString "items/[n]/self/items")).
  - apply bare_quiet.
  - apply paths_denote_string.
Defined.

(** * The claim on failure *)

Section FailureClaim.

Import Tree.




End FailureClaim.

(** * Mixing colours *)

Section ToastFacts.
Import Toast.

Lemma below_256 (P : nat → bool) :
  forallb P (seq 0 256) = true → ∀ n, n < 256 → P n = true.
Proof.
  intros HP n Hn. rewrite forallb_forall in HP. apply HP, in_seq. lia.
Qed.

Lemma h2d_two_hex upper n : n < 256 → h2d (two_hex upper n) = number_of_nat n.
Proof.
  intros Hn.
  pose proof (below_256
    (λ n, bool_decide (h2d (two_hex true n) = number_of_nat n
                       ∧ h2d (two_hex false n) = number_of_nat n))) as H.
  specialize (H ltac:(vm_compute; reflexivity) n Hn).
  apply bool_decide_eq_true in H. by destruct upper, H.
Qed.

Lemma d2h_integer n : n < 256 → d2h (IInteger (Z.of_nat n)) = two_hex false n.
Proof.
  intros Hn.
  pose proof (below_256
    (λ n, bool_decide (d2h (IInteger (Z.of_nat n)) = two_hex false n))) as H.
  specialize (H ltac:(vm_compute; reflexivity) n Hn).
  by apply bool_decide_eq_true in H.
Qed.

(** Settles a goal about [n < 256] by running it on each of the 256 values. *)
Ltac by_cases_below_256 Hn :=
  match type of Hn with
  | ?n < 256 =>
      pattern n;
      match goal with
      | |- ?P n =>
          let H := fresh in
          pose proof (below_256 (λ k, bool_decide (P k))) as H;
          specialize (H ltac:(vm_compute; reflexivity) n Hn);
          exact (bool_decide_eq_true_1 _ H)
      end
  end.

Lemma number_times_1_0 n :
  n < 256 →
  Number_mul (number_of_nat n) (number_of_Z 1) = number_of_nat n
  ∧ Number_mul (number_of_nat n) (number_of_Z 0) = number_of_Z 0.
Proof. intros Hn. by_cases_below_256 Hn. Qed.

Lemma number_plus_0 n :
  n < 256 →
  Number_add (number_of_nat n) (number_of_Z 0) = number_of_nat n
  ∧ Number_add (number_of_Z 0) (number_of_nat n) = number_of_nat n.
Proof. intros Hn. by_cases_below_256 Hn. Qed.

Lemma Math_round_integer n :
  n < 256 → Math_round (number_of_nat n) = IInteger (Z.of_nat n).
Proof. intros Hn. by_cases_below_256 Hn. Qed.

Lemma mix_weight_0_1 n1 n2 :
  n1 < 256 → n2 < 256 →
  mix (number_of_nat n1) (number_of_nat n2) (number_of_Z 0) = IInteger (Z.of_nat n1)
  ∧ mix (number_of_nat n1) (number_of_nat n2) (number_of_Z 1) = IInteger (Z.of_nat n2).
Proof.
  intros Hn1 Hn2. unfold mix.
  assert (Number_sub (number_of_Z 1) (number_of_Z 0) = number_of_Z 1) as ->
    by (vm_compute; reflexivity).
  assert (Number_sub (number_of_Z 1) (number_of_Z 1) = number_of_Z 0) as ->
    by (vm_compute; reflexivity).
  destruct (number_times_1_0 n1 Hn1) as [-> ->], (number_times_1_0 n2 Hn2) as [-> ->].
  destruct (number_plus_0 n1 Hn1) as [-> _], (number_plus_0 n2 Hn2) as [_ ->].
  by rewrite !Math_round_integer.
Qed.

Lemma mix_toast_weights n :
  n < 256 →
  mix (number_of_nat n) (number_of_nat 255) (tenths 4) = IInteger (Z.of_nat (lighter_40 n))
  ∧ mix (number_of_nat n) (number_of_nat 0) (tenths 6) = IInteger (Z.of_nat (darker_60 n))
  ∧ mix (number_of_nat n) (number_of_nat 0) (tenths 2) = IInteger (Z.of_nat (darker_20 n)).
Proof.
  intros Hn.
  pose proof (below_256 (λ n, bool_decide
    (mix (number_of_nat n) (number_of_nat 255) (tenths 4) = IInteger (Z.of_nat (lighter_40 n))
     ∧ mix (number_of_nat n) (number_of_nat 0) (tenths 6) = IInteger (Z.of_nat (darker_60 n))
     ∧ mix (number_of_nat n) (number_of_nat 0) (tenths 2) = IInteger (Z.of_nat (darker_20 n))))) as H.
  specialize (H ltac:(vm_compute; reflexivity) n Hn).
  by apply bool_decide_eq_true in H.
Qed.

Lemma toast_shades_ordered n :
  n < 256 →
  darker_60 n ≤ darker_20 n ∧ darker_20 n ≤ n ∧ n ≤ lighter_40 n ∧ lighter_40 n < 256.
Proof.
  intros Hn. by_cases_below_256 Hn.
Qed.

Lemma String_append_assoc (s1 s2 s3 : string) : (s1 +:+ s2) +:+ s3 = s1 +:+ s2 +:+ s3.
Proof.
  induction s1 as [|c s1 IH]; [done|].
  change (String c ((s1 +:+ s2) +:+ s3) = String c (s1 +:+ s2 +:+ s3)). by f_equal.
Qed.

Lemma remove_first_head c s : remove_first c (String c s) = s.
Proof. simpl. by rewrite decide_True. Qed.

(** A colour of six digits is mixed channel by channel. *)
Lemma mixColors_channels u1 r1 g1 b1 u2 r2 g2 b2 weight :
  mixColors (hex_color u1 r1 g1 b1) (hex_color u2 r2 g2 b2) weight
  = "#" +:+ d2h (mix (h2d (two_hex u1 r1)) (h2d (two_hex u2 r2)) weight)
        +:+ d2h (mix (h2d (two_hex u1 g1)) (h2d (two_hex u2 g2)) weight)
        +:+ d2h (mix (h2d (two_hex u1 b1)) (h2d (two_hex u2 b2)) weight).
Proof.
  unfold hex_color, two_hex.
  generalize (digit_char u1 (r1 / 16)) (digit_char u1 (r1 mod 16))
    (digit_char u1 (g1 / 16)) (digit_char u1 (g1 mod 16))
    (digit_char u1 (b1 / 16)) (digit_char u1 (b1 mod 16))
    (digit_char u2 (r2 / 16)) (digit_char u2 (r2 mod 16))
    (digit_char u2 (g2 / 16)) (digit_char u2 (g2 mod 16))
    (digit_char u2 (b2 / 16)) (digit_char u2 (b2 mod 16)).
  intros. unfold mixColors, mix_channel. rewrite !remove_first_head.
  cbn [foldl seq String_substring String.substring Nat.min Nat.max Nat.sub Nat.mul
       Nat.add].
  by rewrite !String_append_assoc.
Qed.

(** The two ends of a mix: the weight 0 gives the first colour and the
    weight 1 the second, both written with lower-case digits. *)
Theorem mix_ends_at_either_colour u1 r1 g1 b1 u2 r2 g2 b2 :
  r1 < 256 → g1 < 256 → b1 < 256 → r2 < 256 → g2 < 256 → b2 < 256 →
  mixColors (hex_color u1 r1 g1 b1) (hex_color u2 r2 g2 b2) (number_of_Z 0)
  = hex_color false r1 g1 b1
  ∧ mixColors (hex_color u1 r1 g1 b1) (hex_color u2 r2 g2 b2) (number_of_Z 1)
    = hex_color false r2 g2 b2.
Proof.
  intros Hr1 Hg1 Hb1 Hr2 Hg2 Hb2.
  rewrite !mixColors_channels, !h2d_two_hex by done.
  destruct (mix_weight_0_1 r1 r2 Hr1 Hr2) as [-> ->],
    (mix_weight_0_1 g1 g2 Hg1 Hg2) as [-> ->], (mix_weight_0_1 b1 b2 Hb1 Hb2) as [-> ->].
  by rewrite !d2h_integer.
Qed.

Lemma mix_ends_at_either_colour_witness :
  mixColors "#537C37" "#abcdef" (number_of_Z 0) = "#537c37"
  ∧ mixColors "#537C37" "#abcdef" (number_of_Z 1) = "#abcdef".
Proof.
  apply (mix_ends_at_either_colour true 83 124 55 false 171 205 239); lia.
Defined.

(** [updateToastColors] with a colour of six digits sets the colour
    itself and three shades of six lower-case digits: every channel [n]
    becomes the integer nearest to [0.6 n + 102], to [0.4 n] and to
    [0.8 n]; so the three shades are well-formed colours, no channel leaves
    0..255, and channel by channel darker-60 ≤ darker-20 ≤ colour ≤
    lighter-40. *)
Theorem toast_shades upper r g b :
  r < 256 → g < 256 → b < 256 →
  updateToastColors (hex_color upper r g b)
  = [ ("--toast-color", hex_color upper r g b);
      ("--toast-color-lighter-40", hex_color false (lighter_40 r) (lighter_40 g) (lighter_40 b));
      ("--toast-color-darker-60", hex_color false (darker_60 r) (darker_60 g) (darker_60 b));
      ("--toast-color-darker-20", hex_color false (darker_20 r) (darker_20 g) (darker_20 b)) ]
  ∧ Forall (λ n, darker_60 n ≤ darker_20 n ∧ darker_20 n ≤ n ∧ n ≤ lighter_40 n
                 ∧ lighter_40 n < 256) [r; g; b].
Proof.
  intros Hr Hg Hb. split.
  - unfold updateToastColors.
    change "#FFFFFF" with (hex_color true 255 255 255).
    change "#000000" with (hex_color true 0 0 0).
    rewrite !mixColors_channels, !h2d_two_hex by (done || lia).
    destruct (mix_toast_weights r Hr) as (-> & -> & ->),
      (mix_toast_weights g Hg) as (-> & -> & ->),
      (mix_toast_weights b Hb) as (-> & -> & ->).
    pose proof (toast_shades_ordered r Hr). pose proof (toast_shades_ordered g Hg).
    pose proof (toast_shades_ordered b Hb).
    by rewrite !d2h_integer by lia.
  - rewrite !Forall_cons, Forall_nil. auto using toast_shades_ordered.
Qed.

Lemma toast_shades_witness :
  updateToastColors "#537c37"
  = [ ("--toast-color", "#537c37"); ("--toast-color-lighter-40", "#98b087");
      ("--toast-color-darker-60", "#213216"); ("--toast-color-darker-20", "#42632c") ].
Proof.
  apply (toast_shades false 83 124 55); lia.
Defined.

Lemma substring_past_the_end s : String.length s ≤ 4 → String_substring 4 6 s = "".
Proof.
  intros Hs. unfold String_substring. cbn [Nat.min Nat.max Nat.sub].
  do 5 (destruct s as [|? s]; [done|]). simpl in Hs. lia.
Qed.

Lemma Number_add_nan_r x : Number_add x S754_nan = S754_nan.
Proof. by destruct x. Qed.

(** A colour with fewer than five digits, such as the three-digit form
    [#fff], leaves the last channel without digits: whatever the other
    colour and the weight, the result ends in [NaN] and is no colour. *)
Theorem short_colour_mixes_to_NaN color1 color2 weight :
  String.length (remove_first "#" color1) ≤ 4
  ∨ String.length (remove_first "#" color2) ≤ 4 →
  ∃ digits, mixColors color1 color2 weight = "#" +:+ digits +:+ "NaN".
Proof.
  intros Hshort. unfold mixColors. cbn [foldl seq].
  set (c1 := remove_first "#" color1) in *. set (c2 := remove_first "#" color2) in *.
  exists (mix_channel c1 c2 weight 0 +:+ mix_channel c1 c2 weight 1).
  assert (mix_channel c1 c2 weight 2 = "NaN") as ->.
  { unfold mix_channel, mix. cbn [Nat.mul Nat.add].
    destruct Hshort as [Hs|Hs]; rewrite (substring_past_the_end _ Hs).
    - done.
    - change (h2d "") with S754_nan.
      change (Number_mul S754_nan weight) with S754_nan.
      by rewrite Number_add_nan_r. }
  by rewrite !String_append_assoc.
Qed.

Lemma short_colour_mixes_to_NaN_witness :
  ∃ digits, mixColors "#fff" "#000000" (tenths 2) = "#" +:+ digits +:+ "NaN".
Proof.
  apply short_colour_mixes_to_NaN. left. vm_compute. lia.
Defined.

End ToastFacts.

(** * Requests *)

Section RequestFacts.
Import Requests.
Variable fetch : string → option RequestInit → outcome Response.

Lemma prefix_split s1 s2 :
  String.prefix s1 s2 = true ↔ ∃ post, s2 = s1 +:+ post.
Proof.
  revert s2. induction s1 as [|c s1 IH]; intros s2.
  - split; [intros _; by exists s2|intros _; by destruct s2].
  - destruct s2 as [|c' s2]; simpl.
    + split; [done|]. by intros [post ?].
    + destruct (ascii_dec c c') as [->|Hne].
      * rewrite IH. split; intros [post Hpost]; exists post.
        -- by rewrite Hpost.
        -- by injection Hpost.
      * split; [done|]. intros [post Hpost]. injection Hpost as ? ?. by destruct Hne.
Qed.

Lemma String_includes_split html text :
  String_includes html text = true ↔ ∃ pre post, html = pre +:+ text +:+ post.
Proof.
  unfold String_includes. rewrite bool_decide_eq_true.
  induction html as [|c html IH].
  - simpl. destruct text as [|c' text].
    + split; [intros _; by exists "", ""|by eauto].
    + split; [by intros [? ?]|]. intros (pre & post & Heq). by destruct pre.
  - cbn [String.index].
    destruct (String.prefix text (String c html)) eqn:Hpre.
    + split; [intros _|by eauto].
      apply prefix_split in Hpre as [post Hpost]. exists "", post. by rewrite Hpost.
    + assert (is_Some match String.index 0 text html with
                      | Some n => Some (S n) | None => None end
              ↔ is_Some (String.index 0 text html)) as ->.
      { destruct (String.index 0 text html); split; by eauto. }
      rewrite IH. split.
      * intros (pre & post & ->). by exists (String c pre), post.
      * intros (pre & post & Heq). destruct pre as [|c' pre].
        -- assert (String.prefix text (String c html) = true) as Hyes
             by (apply prefix_split; by exists post).
           congruence.
        -- injection Heq as ? ->. by exists pre, post.
Qed.

(** [doesHTMLIncludeText] answers [true] exactly when the request is
    answered with an [ok] response whose body holds the text. *)
Theorem text_found_iff_ok_body_holds_it path text :
  (doesHTMLIncludeText fetch path text).1 = Fulfilled true
  ↔ ∃ response pre post,
      fetch path (Some {| headers := [] |}) = Fulfilled response
      ∧ ok response = true
      ∧ Requests.text response = Fulfilled (pre +:+ text +:+ post).
Proof.
  unfold doesHTMLIncludeText, getRequest.
  destruct (fetch path _) as [response|err] eqn:Hfetch.
  - destruct (ok response) eqn:Hok; cbn.
    + destruct (Requests.text response) as [html|err] eqn:Htext; cbn.
      * split.
        -- intros [= Hyes]. apply String_includes_split in Hyes as (pre & post & ->).
           by exists response, pre, post.
        -- intros (? & pre & post & [= <-] & _ & Hbody).
           rewrite Htext in Hbody. injection Hbody as ->.
           f_equal. apply String_includes_split. by exists pre, post.
      * split; [done|]. intros (? & ? & ? & [= <-] & _ & Hbody). congruence.
    + split; [done|]. intros (? & ? & ? & [= <-] & ? & _). congruence.
  - split.
    + by destruct err as [[]| |].
    + by intros (? & ? & ? & ? & _).
Qed.

(** A request that fails, or is answered with a status that is not [ok],
    never rejects [doesHTMLIncludeText]: the answer is [false], and
    [console.error] is called, once, exactly when [fetch] rejected with an
    [Error]. *)
Theorem failed_request_reads_as_text_absent path text :
  (∀ response, fetch path (Some {| headers := [] |}) = Fulfilled response →
               ok response = false) →
  doesHTMLIncludeText fetch path text
  = (Fulfilled false,
     match fetch path (Some {| headers := [] |}) with
     | Rejected err => if instanceof_Error err then [("API request failed", err)] else []
     | Fulfilled _ => []
     end).
Proof.
  intros Hfail. unfold doesHTMLIncludeText, getRequest.
  destruct (fetch path _) as [response|err] eqn:Hfetch.
  - by rewrite (Hfail response).
  - by destruct err as [[]| |].
Qed.

(** With [sourcePaths] a string or an array of strings, in a host where no
    read on the prototype chain throws, [getDataFromDataStore] is rejected
    only with what [fetch] or [json()] is rejected with: the query adds no
    failure of its own.  With [sourcePaths] left [undefined] and a body
    that parses, the promise is rejected with the [TypeError] of the
    query. *)
Theorem data_store_rejects_only_with_the_request env storeName sourcePaths h :
  (Store.quiet env →
   (∀ response storeData h',
      fetch (data_store_url storeName) None = Fulfilled response →
      json response h = (Fulfilled storeData, h') →
      ∃ paths, paths_denote h' sourcePaths paths) →
   ∀ err,
     (getDataFromDataStore fetch env storeName sourcePaths h).1.1 = Rejected err →
     fetch (data_store_url storeName) None = Rejected err
     ∨ ∃ response h', fetch (data_store_url storeName) None = Fulfilled response
                      ∧ ok response = true ∧ json response h = (Rejected err, h'))
  ∧ (∀ response storeData h',
       fetch (data_store_url storeName) None = Fulfilled response →
       ok response = true →
       json response h = (Fulfilled storeData, h') →
       (getDataFromDataStore fetch env storeName Store.VUndefined h).1.1
       = Rejected (Exception TypeError)).
Proof.
  split.
  - intros Hquiet Hpaths err. unfold getDataFromDataStore.
    destruct (fetch _ None) as [response|err'] eqn:Hfetch; cbn [fst];
      [|intros [= ->]; by left].
    destruct (ok response) eqn:Hok; cbn [negb fst]; [|done].
    destruct (json response h) as [[storeData|err'] h'] eqn:Hjson; cbn [fst].
    + destruct (Hpaths response storeData h' eq_refl Hjson) as [paths Hdenote].
      destruct (ends_well_cases env _ _
                  (extract_outcome env h' storeData sourcePaths paths Hdenote))
        as [(v & h'' & -> & _)|(e & h'' & _ & He)]; [done|].
      by apply (quiet_never_thrown env e Hquiet) in He.
    + intros [= ->]. right. by exists response, h'.
  - intros response storeData h' Hfetch Hok Hjson. unfold getDataFromDataStore.
    by rewrite Hfetch, Hok, Hjson.
Qed.

End RequestFacts.

Lemma failed_request_reads_as_text_absent_witness :
  Requests.doesHTMLIncludeText (Requests.answers Requests.not_found) "/status" "up"
  = (Requests.Fulfilled false, []).
Proof.
  apply (failed_request_reads_as_text_absent (Requests.answers Requests.not_found)
           "/status" "up").
  intros response [= <-]. reflexivity.
Defined.

Lemma data_store_rejects_only_with_the_request_witness :
  (Requests.answers Requests.malformed (Requests.data_store_url "colors") None
   = Requests.Rejected (Requests.HostError "Unexpected end of JSON input")
   ∨ ∃ response h',
       Requests.answers Requests.malformed (Requests.data_store_url "colors") None
       = Requests.Fulfilled response
       ∧ Requests.ok response = true
       ∧ Requests.json response []
         = (Requests.Rejected (Requests.HostError "Unexpected end of JSON input"), h'))
  ∧ (Requests.getDataFromDataStore (Requests.answers Requests.list_store) Store.bare
       "colors" Store.VUndefined []).1.1
    = Requests.Rejected (Requests.Exception TypeError).
Proof.
  split.
  - apply (proj1 (data_store_rejects_only_with_the_request
                    (Requests.answers Requests.malformed) Store.bare "colors"
                    (Store.VString "toast/success") [])).
    + apply bare_quiet.
    + intros response storeData h' _ _. exists (PathString "toast/success").
      apply paths_denote_string.
    + reflexivity.
  - apply (proj2 (data_store_rejects_only_with_the_request
                    (Requests.answers Requests.list_store) Store.bare "colors"
                    Store.VUndefined [])
             Requests.list_store (Store.VRef 0) [Store.Arr [Store.num 1]]); reflexivity.
Defined.

(** * Debounced calls *)

Section DebounceFacts.
Import Debounce.
Context {callback : Type}.
Variable timer_delay : number → nat.
Implicit Types (st : state callback) (evs : list (event callback)).

Lemma settled_initial : settled (@initial callback).
Proof.
  repeat split; cbn; try lia; try done.
  intros handle. rewrite lookup_empty. by intros [? ?].
Qed.

Lemma handleChange_timers st f delay :
  settled st →
  timers (handleChange timer_delay f delay st)
  = {[ next_handle st := (f, now st + timer_delay (default (number_of_Z 500) delay)) ]}
  ∧ autoSaveTimeout (handleChange timer_delay f delay st) = Some (next_handle st)
  ∧ next_handle (handleChange timer_delay f delay st) = S (next_handle st)
  ∧ now (handleChange timer_delay f delay st) = now st
  ∧ called (handleChange timer_delay f delay st) = called st.
Proof.
  intros (Hpos & Hauto & Hpending). unfold handleChange.
  assert (timers (if truthy (autoSaveTimeout st)
                  then clearTimeout (default 0 (autoSaveTimeout st)) st else st) = ∅) as Hnone.
  { apply map_empty. intros handle. apply eq_None_not_Some. intros Hsome.
    destruct (autoSaveTimeout st) as [[|h]|] eqn:Ha; cbn in Hsome.
    - specialize (Hauto 0 eq_refl). lia.
    - rewrite lookup_delete_is_Some in Hsome. destruct Hsome as [Hne Hsome].
      apply Hpending in Hsome. congruence.
    - by apply Hpending in Hsome. }
  destruct (autoSaveTimeout st) as [[|h]|]; cbn in *; by rewrite Hnone.
Qed.

Lemma settled_step st ev : settled st → settled (step timer_delay st ev).
Proof.
  intros Hst. destruct ev as [f delay|ms|handle]; cbn [step].
  - destruct (handleChange_timers st f delay Hst) as (Ht & Ha & Hn & _).
    destruct Hst as (Hpos & _). unfold settled. rewrite Ht, Ha, Hn.
    split; [lia|]. split.
    + intros handle [= <-]. lia.
    + intros handle [? Hsome].
      by apply lookup_singleton_Some in Hsome as [<- _].
  - done.
  - destruct Hst as (Hpos & Hauto & Hpending).
    destruct (timers st !! handle) as [[f due]|] eqn:Hh; [|done].
    case_bool_decide; [|done]. split; [done|]. split; [done|]. cbn.
    intros handle'. rewrite lookup_delete_is_Some. intros [_ ?]. by apply Hpending.
Qed.

Lemma settled_run st evs : settled st → settled (run timer_delay st evs).
Proof.
  revert st. induction evs as [|ev evs IH]; intros st Hst; [done|].
  apply IH, settled_step, Hst.
Qed.

Lemma now_step st ev : now (step timer_delay st ev) = now st + waited [ev].
Proof.
  destruct ev as [f delay|ms|handle]; cbn.
  - unfold handleChange. destruct (truthy _); cbn; lia.
  - lia.
  - destruct (timers st !! handle) as [[f due]|]; [case_bool_decide|]; cbn; lia.
Qed.

Lemma waited_app evs1 evs2 : waited (evs1 ++ evs2) = waited evs1 + waited evs2.
Proof.
  induction evs1 as [|[] evs1 IH]; cbn [app waited]; lia.
Qed.

Lemma now_run st evs : now (run timer_delay st evs) = now st + waited evs.
Proof.
  revert st. induction evs as [|ev evs IH]; intros st; cbn [run foldl].
  - cbn. lia.
  - fold (run timer_delay (step timer_delay st ev) evs). rewrite IH, now_step.
    change (ev :: evs) with ([ev] ++ evs). rewrite waited_app. lia.
Qed.

Lemma quiet_step st0 f due st ev :
  is_call ev = false → pending_or_fired st0 f due st →
  pending_or_fired st0 f due (step timer_delay st ev).
Proof.
  intros Hev Hst. pose proof (now_step st ev) as Hnow.
  destruct ev as [|ms|handle]; [done|..].
  - destruct Hst as [?|(? & ? & ?)]; [by left|right].
    split; [done|]. split; [done|]. lia.
  - cbn [step] in *. destruct Hst as [[Ht Hc]|(Ht & Hc & Hdue)].
    + rewrite Ht. destruct (decide (handle = next_handle st0)) as [->|Hne].
      * rewrite lookup_singleton_eq. case_bool_decide; [|by left]. right. cbn.
        by rewrite delete_singleton_eq, Hc.
      * rewrite lookup_singleton_ne by done. by left.
    + rewrite Ht, lookup_empty. by right.
Qed.

Lemma quiet_run st0 f due st evs :
  Forall (λ ev, is_call ev = false) evs → pending_or_fired st0 f due st →
  pending_or_fired st0 f due (run timer_delay st evs).
Proof.
  intros Hevs. revert st. induction Hevs as [|ev evs Hev _ IH]; intros st Hst; [done|].
  apply IH, quiet_step; done.
Qed.

(** [handleChange] debounces.  In a state the program can reach, after a
    call [handleChange(f, delay)] and until the next call, nothing runs but
    [f], at most once and not before the time has passed that the host
    waits for a timer of that delay; and the next call leaves one timer
    pending, its own, so that [f] never runs if it has not run by then. *)
Theorem handleChange_debounces evs f delay quiet :
  Forall (λ ev, is_call ev = false) quiet →
  (called (run timer_delay (handleChange timer_delay f delay (run timer_delay initial evs)) quiet) = called (run timer_delay initial evs)
   ∨ called (run timer_delay (handleChange timer_delay f delay (run timer_delay initial evs)) quiet)
     = called (run timer_delay initial evs) ++ [f]
     ∧ timer_delay (default (number_of_Z 500) delay) ≤ waited quiet)
  ∧ ∀ g delay',
      timers (handleChange timer_delay g delay'
                (run timer_delay (handleChange timer_delay f delay
                                    (run timer_delay initial evs)) quiet))
      = {[ next_handle (run timer_delay (handleChange timer_delay f delay
                                           (run timer_delay initial evs)) quiet)
           := (g, now (run timer_delay (handleChange timer_delay f delay
                                          (run timer_delay initial evs)) quiet)
                  + timer_delay (default (number_of_Z 500) delay')) ]}.
Proof.
  intros Hquiet.
  set (st := run timer_delay initial evs). set (st' := run timer_delay (handleChange timer_delay f delay st) quiet).
  assert (settled st) as Hst by apply settled_run, settled_initial.
  destruct (handleChange_timers st f delay Hst) as (Ht & Ha & Hn & Hnow & Hc).
  assert (settled st') as Hst'.
  { apply settled_run. apply (settled_step st (Call f delay) Hst). }
  split.
  - assert (pending_or_fired st f (now st + timer_delay (default (number_of_Z 500) delay)) st')
      as [[_ Hsame]|(_ & Hran & Hdue)].
    { apply quiet_run; [done|]. left. by rewrite Ht, Hc. }
    + by left.
    + right. split; [done|]. unfold st' in Hdue. rewrite now_run, Hnow in Hdue. lia.
  - intros g delay'. by destruct (handleChange_timers st' g delay' Hst') as (-> & _).
Qed.

End DebounceFacts.

Lemma handleChange_debounces_witness :
  (Debounce.called (Debounce.saved_twice Debounce.then_idle)
   = Debounce.called (Debounce.run Debounce.html_timer_delay Debounce.initial Debounce.first_edit)
   ∨ Debounce.called (Debounce.saved_twice Debounce.then_idle)
     = Debounce.called (Debounce.run Debounce.html_timer_delay Debounce.initial
                          Debounce.first_edit) ++ ["save 2"]
     ∧ Debounce.html_timer_delay (default (number_of_Z 500) (Some Debounce.ms_300))
       ≤ Debounce.waited Debounce.then_idle)
  ∧ ∀ g delay',
      Debounce.timers (Debounce.handleChange Debounce.html_timer_delay g delay'
                         (Debounce.saved_twice Debounce.then_idle))
      = {[ Debounce.next_handle (Debounce.saved_twice Debounce.then_idle)
           := (g, Debounce.now (Debounce.saved_twice Debounce.then_idle)
                  + Debounce.html_timer_delay (default (number_of_Z 500) delay')) ]}.
Proof.
  unfold Debounce.saved_twice.
  apply (handleChange_debounces Debounce.html_timer_delay Debounce.first_edit "save 2"
           (Some Debounce.ms_300) Debounce.then_idle).
  unfold Debounce.then_idle. repeat constructor.
Defined.

(** In a browser a delay of 500 is 500 ms; the largest delay is
    [2^31 - 1]; [2^31] wraps to a negative number and is no delay, as is a
    delay that is not a number. *)
Lemma html_timer_delay_wraps :
  Debounce.html_timer_delay (number_of_Z 500) = 500
  ∧ Debounce.html_timer_delay (number_of_Z (2 ^ 31)) = 0
  ∧ Debounce.ToInt32 (number_of_Z (2 ^ 31 - 1)) = (2 ^ 31 - 1)%Z
  ∧ Debounce.ToInt32 (number_of_Z (2 ^ 31)) = (- 2 ^ 31)%Z
  ∧ Debounce.html_timer_delay S754_nan = 0.
Proof. repeat split; vm_compute; reflexivity. Qed.
